(** * Settlement computation of the split-bill application

    Shallow embedding of [calculateDebts] (src/App.jsx, lines 45-80) and of
    the JavaScript run-time notions it relies on: numbers, plain objects used
    as dictionaries ([debtMap]), [Object.entries], [Array.prototype.sort]
    and the two-pointer [while] loop.

    The embedding is written once, over an interface [Number] of the
    numeric operations the function uses.  Two instances are given:
    - [Double]: IEEE-754 binary64 numbers, the values a JavaScript engine
      computes with; what is stated of [calculateDebts] as it runs is stated
      on this instance, or for every instance;
    - [Exact]: rationals [Q] with exact arithmetic, the "finite real
      numbers" of the input contract; it carries the properties that are
      worded in exact arithmetic, and shows what rounding and overflow
      change. *)

From Stdlib Require Import QArith Qabs Qminmax Lqa Lia.
From Stdlib Require Import List Permutation Sorted String Ascii Bool Arith NArith Floats.
Import ListNotations.

Set Implicit Arguments.

(** ** Numbers *)

(** The operations of JavaScript numbers that [calculateDebts] uses. *)
Class Number (num : Type) : Type := {
  n_zero : num;                     (* the literal [0] *)
  n_cent : num;                     (* the literal [0.01] *)
  n_add : num -> num -> num;        (* [a + b] *)
  n_sub : num -> num -> num;        (* [a - b] *)
  n_abs : num -> num;               (* [Math.abs(a)] *)
  n_min : num -> num -> num;        (* [Math.min(a, b)] *)
  n_gt : num -> num -> bool;        (* [a > b] *)
  n_lt : num -> num -> bool;        (* [a < b] *)
  n_eq : num -> num -> bool         (* [a === b] *)
}.

(** [a < b] on rationals, as a boolean. *)
Definition Qlt_bool (a b : Q) : bool := negb (Qle_bool b a).

(** Exact arithmetic. *)
Definition Exact : Number Q := {|
  n_zero := 0;
  n_cent := 0.01;
  n_add := Qplus;
  n_sub := Qminus;
  n_abs := Qabs;
  n_min := Qmin;
  n_gt := fun a b => Qlt_bool b a;
  n_lt := fun a b => Qlt_bool a b;
  n_eq := Qeq_bool
|}.

(** [Math.min] on doubles: [NaN] if either argument is [NaN], otherwise the
    smaller argument, [-0] counting as smaller than [+0]. *)
Definition float_min (a b : float) : float :=
  if PrimFloat.is_nan a then a
  else if PrimFloat.is_nan b then b
  else if PrimFloat.ltb b a then b
  else if PrimFloat.eqb a b && PrimFloat.get_sign b then b
  else a.

(** IEEE-754 binary64 arithmetic, round to nearest even; the literal
    [0.01] denotes the double nearest to one hundredth. *)
Definition Double : Number float := {|
  n_zero := 0%float;
  n_cent := 0x1.47ae147ae147bp-7%float;
  n_add := PrimFloat.add;
  n_sub := PrimFloat.sub;
  n_abs := PrimFloat.abs;
  n_min := float_min;
  n_gt := fun a b => PrimFloat.ltb b a;
  n_lt := fun a b => PrimFloat.ltb a b;
  n_eq := PrimFloat.eqb
|}.

(** ** Plain objects used as dictionaries *)

(** The own enumerable string-keyed properties of an object created by
    [{}], in creation order. *)
Definition object (V : Type) : Type := list (string * V).

(** Defining or overwriting an own property: an existing key keeps its
    place, a new key goes last. *)
Fixpoint define_property {V : Type} (o : object V) (k : string) (v : V) : object V :=
  match o with
  | [] => [(k, v)]
  | (k', v') :: o' =>
      if String.eqb k k' then (k, v) :: o' else (k', v') :: define_property o' k v
  end.

(** [o[k] = v] with [v] a number.  The key ["__proto__"] reaches the
    accessor inherited from [Object.prototype], whose setter ignores a value
    that is neither an object nor [null]: no own property is created. *)
Definition obj_assign {V : Type} (o : object V) (k : string) (v : V) : object V :=
  if String.eqb k "__proto__" then o else define_property o k v.

(** [o[k]] restricted to own properties. *)
Fixpoint obj_get {V : Type} (o : object V) (k : string) : option V :=
  match o with
  | [] => None
  | (k', v) :: o' => if String.eqb k k' then Some v else obj_get o' k
  end.

Definition digit_of (c : ascii) : option N :=
  let n := N_of_ascii c in
  if ((48 <=? n) && (n <=? 57))%N then Some (n - 48)%N else None.

Fixpoint digits_value (s : string) (acc : N) : option N :=
  match s with
  | EmptyString => Some acc
  | String c s' =>
      match digit_of c with
      | Some d => digits_value s' (10 * acc + d)%N
      | None => None
      end
  end.

(** An array index is the canonical decimal writing of an integer between
    0 and 2^32 - 2. *)
Definition array_index (s : string) : option N :=
  match s with
  | EmptyString => None
  | String "0"%char EmptyString => Some 0%N
  | String "0"%char _ => None
  | _ =>
      match digits_value s 0 with
      | Some n => if (n <? 2 ^ 32 - 1)%N then Some n else None
      | None => None
      end
  end.

Fixpoint insert_by_index {V : Type} (e : N * (string * V)) (l : list (N * (string * V)))
  : list (N * (string * V)) :=
  match l with
  | [] => [e]
  | e' :: l' => if (fst e <? fst e')%N then e :: l else e' :: insert_by_index e l'
  end.

Definition index_keyed {V : Type} (o : object V) : list (N * (string * V)) :=
  flat_map (fun kv => match array_index (fst kv) with
                      | Some n => [(n, kv)]
                      | None => []
                      end) o.

Definition is_named {V : Type} (kv : string * V) : bool :=
  match array_index (fst kv) with Some _ => false | None => true end.

(** [Object.entries(o)]: array-index keys first, in ascending numeric
    order, then the other keys in creation order. *)
Definition Object_entries {V : Type} (o : object V) : list (string * V) :=
  map snd (fold_right insert_by_index [] (index_keyed o)) ++ filter is_named o.

(** ** The settlement computation *)

Section Settlement.

Variable num : Type.
Context {arith : Number num}.

(** Ledger records, as [addPerson], [addItem] and [addPayment] build them
    (the field [debt] of a person is never read by [calculateDebts] and is
    left out). *)
Record item : Type := { item_name : string; value : num }.
Record person : Type := { name : string; items : list item; payments : list num }.

(** An element [{ name, amount }] of [creditors] or [debtors]. *)
Record party : Type := { party_name : string; amount : num }.

(** An element [{ from, to, amount }] of [debts]. *)
Record debt : Type := { from : string; to : string; debt_amount : num }.

(** The returned object: [{ error }] or [{ debts }]; a property that is not
    set is [None]. *)
Record result : Type := { error : option string; debts : option (list debt) }.

(** [person.items.reduce((acc, item) => acc + item.value, 0)] *)
Definition spent (p : person) : num :=
  fold_left (fun acc it => n_add acc (value it)) (items p) n_zero.

(** [person.payments.reduce((acc, pay) => acc + pay, 0)] *)
Definition paid (p : person) : num :=
  fold_left (fun acc pay => n_add acc pay) (payments p) n_zero.

(** The value stored under [person.name]: [paid - spent]. *)
Definition balance (p : person) : num := n_sub (paid p) (spent p).

(** The variables the [forEach] callback updates. *)
Record ledger : Type := { totalSpent : num; totalPaid : num; debtMap : object num }.

Definition forEach_person (acc : ledger) (p : person) : ledger :=
  {| totalSpent := n_add (totalSpent acc) (spent p);
     totalPaid := n_add (totalPaid acc) (paid p);
     debtMap := obj_assign (debtMap acc) (name p) (balance p) |}.

Definition aggregate (people : list person) : ledger :=
  fold_left forEach_person people
    {| totalSpent := n_zero; totalPaid := n_zero; debtMap := [] |}.

(** [Math.abs(totalSpent - totalPaid) > 0.01] *)
Definition totals_mismatch (l : ledger) : bool :=
  n_gt (n_abs (n_sub (totalSpent l) (totalPaid l))) n_cent.

(** One turn of the [for ... of Object.entries(debtMap)] loop. *)
Definition classify (acc : list party * list party) (e : string * num)
  : list party * list party :=
  if n_gt (snd e) n_zero
  then (fst acc ++ [{| party_name := fst e; amount := snd e |}], snd acc)
  else if n_lt (snd e) n_zero
  then (fst acc, snd acc ++ [{| party_name := fst e; amount := n_abs (snd e) |}])
  else acc.

Definition split_entries (m : object num) : list party * list party :=
  fold_left classify (Object_entries m) ([], []).

(** The comparator [(a, b) => b.amount - a.amount]. *)
Definition by_amount_desc (a b : party) : num := n_sub (amount b) (amount a).

(** [Array.prototype.sort] is stable: an element moves behind a later one
    only when the comparator is positive on the pair.  [x] stands before
    every element of [l] in the array being sorted. *)
Fixpoint sort_insert {A : Type} (cmp : A -> A -> num) (x : A) (l : list A) : list A :=
  match l with
  | [] => [x]
  | y :: l' => if n_gt (cmp x y) n_zero then y :: sort_insert cmp x l' else x :: l
  end.

Definition Array_sort {A : Type} (cmp : A -> A -> num) (l : list A) : list A :=
  fold_right (sort_insert cmp) [] l.

(** [creditors] and [debtors] as they stand when the [while] loop starts. *)
Definition creditors_of (people : list person) : list party :=
  Array_sort by_amount_desc (fst (split_entries (debtMap (aggregate people)))).

Definition debtors_of (people : list person) : list party :=
  Array_sort by_amount_desc (snd (split_entries (debtMap (aggregate people)))).

(** The variables of the [while] loop. *)
Record matching : Type := {
  st_creditors : list party;
  st_debtors : list party;
  st_i : nat;
  st_j : nat;
  st_debts : list debt
}.

(** [x.amount -= debt] *)
Definition pay_off (debt : num) (x : party) : party :=
  {| party_name := party_name x; amount := n_sub (amount x) debt |}.

Fixpoint update_nth {A : Type} (n : nat) (f : A -> A) (l : list A) : list A :=
  match l, n with
  | [], _ => []
  | x :: l', O => f x :: l'
  | x :: l', S n' => x :: update_nth n' f l'
  end.

(** One turn of the [while] loop; [None] when the loop condition
    [i < creditors.length && j < debtors.length] is false. *)
Definition loop_body (s : matching) : option matching :=
  match nth_error (st_creditors s) (st_i s), nth_error (st_debtors s) (st_j s) with
  | Some c, Some d =>
      let debt := n_min (amount c) (amount d) in
      Some {| st_debts := st_debts s ++
                [{| from := party_name d; to := party_name c; debt_amount := debt |}];
              st_creditors := update_nth (st_i s) (pay_off debt) (st_creditors s);
              st_debtors := update_nth (st_j s) (pay_off debt) (st_debtors s);
              st_i := if n_eq (n_sub (amount c) debt) n_zero then S (st_i s) else st_i s;
              st_j := if n_eq (n_sub (amount d) debt) n_zero then S (st_j s) else st_j s |}
  | _, _ => None
  end.

(** The [while] loop, run for at most [fuel] turns: [Some] of the final
    variables when the loop condition became false, [None] when the turns
    ran out first. *)
Fixpoint while_loop (fuel : nat) (s : matching) : option matching :=
  match loop_body s with
  | None => Some s
  | Some s' =>
      match fuel with
      | O => None
      | S fuel' => while_loop fuel' s'
      end
  end.

Definition start (people : list person) : matching :=
  {| st_creditors := creditors_of people; st_debtors := debtors_of people;
     st_i := 0; st_j := 0; st_debts := [] |}.

(** [calculateDebts], with the number of loop turns it may take. *)
Definition calculateDebts_fuel (fuel : nat) (people : list person) : option result :=
  if totals_mismatch (aggregate people)
  then Some {| error := Some "Totals do not match"%string; debts := None |}
  else
    match while_loop fuel (start people) with
    | Some s => Some {| error := None; debts := Some (st_debts s) |}
    | None => None
    end.

(** Every turn moves [i] or [j] forward when amounts are exact, so
    [creditors.length + debtors.length] turns are enough then (theorem
    [while_loop_enough_fuel]); [calculateDebts] runs the loop that long.
    [None] stands for a loop that is still running after that many turns. *)
Definition turns (people : list person) : nat :=
  List.length (creditors_of people) + List.length (debtors_of people).

Definition calculateDebts (people : list person) : option result :=
  calculateDebts_fuel (turns people) people.

End Settlement.

Arguments Build_item {num}.
Arguments Build_person {num}.
Arguments Build_party {num}.
Arguments Build_debt {num}.
Arguments Build_result {num}.
Arguments Build_ledger {num}.
Arguments Build_matching {num}.
Arguments item_name {num}.
Arguments value {num}.
Arguments name {num}.
Arguments items {num}.
Arguments payments {num}.
Arguments party_name {num}.
Arguments amount {num}.
Arguments from {num}.
Arguments to {num}.
Arguments debt_amount {num}.
Arguments spent {num arith}.
Arguments paid {num arith}.
Arguments balance {num arith}.
Arguments forEach_person {num arith}.
Arguments classify {num arith}.
Arguments by_amount_desc {num arith}.
Arguments pay_off {num arith}.

(** ** The matching loop seen from its two pointers

    Only [creditors[i]] and [debtors[j]] are written and the pointers only
    move forward, so a turn of the loop is determined by the parts of the
    two arrays from the pointers on. *)

Section Greedy.

Variable num : Type.
Context {arith : Number num}.

(** What is left of an array from its pointer on. *)
Definition remaining (s : matching num) : list (party num) * list (party num) :=
  (skipn (st_i s) (st_creditors s), skipn (st_j s) (st_debtors s)).

(** The part of an array left after its head [x] has paid or received
    [a]: the pointer moves on when the amount reached zero. *)
Definition next (a : num) (x : party num) (xs : list (party num)) : list (party num) :=
  if n_eq (n_sub (amount x) a) n_zero then xs else pay_off a x :: xs.

(** The greedy matching of section 4.3 of the specification, step 3: emit
    a transfer of [min] of the two current amounts from the current debtor
    to the current creditor, subtract it from both, advance past an amount
    that reached zero; stop when a list is exhausted. *)
Fixpoint greedy_match (fuel : nat) (cs ds : list (party num)) : list (debt num) :=
  match fuel, cs, ds with
  | S fuel', c :: cs', d :: ds' =>
      let a := n_min (amount c) (amount d) in
      {| from := party_name d; to := party_name c; debt_amount := a |}
        :: greedy_match fuel' (next a c cs') (next a d ds')
  | _, _, _ => []
  end.

End Greedy.

(** ** Facts that hold for every kind of number *)

Section Generic.

Variable num : Type.
Context {arith : Number num}.

Lemma skipn_cons_nth_error (A : Type) (l : list A) (n : nat) (x : A) (xs : list A) :
  skipn n l = x :: xs -> nth_error l n = Some x.
Proof.
  revert l; induction n as [|n IH]; intros [|y l] E; simpl in *; try discriminate.
  - congruence.
  - auto.
Qed.

Lemma skipn_nil_nth_error (A : Type) (l : list A) (n : nat) :
  skipn n l = [] -> nth_error l n = None.
Proof.
  revert l; induction n as [|n IH]; intros [|y l] E; simpl in *;
    try discriminate; auto.
Qed.

Lemma skipn_update_nth (A : Type) (f : A -> A) (l : list A) (n : nat) (x : A) (xs : list A) :
  skipn n l = x :: xs ->
  skipn n (update_nth n f l) = f x :: xs /\ skipn (S n) (update_nth n f l) = xs.
Proof.
  revert l; induction n as [|n IH]; intros [|y l] E; simpl in *; try discriminate.
  - injection E as E1 E2; subst. split; reflexivity.
  - apply IH in E. exact E.
Qed.

(** A turn of the loop, read on what remains of the two arrays. *)
Lemma loop_body_some (s : matching num) c cs d ds :
  remaining s = (c :: cs, d :: ds) ->
  let a := n_min (amount c) (amount d) in
  exists s', loop_body s = Some s'
    /\ st_debts s' = st_debts s ++
         [{| from := party_name d; to := party_name c; debt_amount := a |}]
    /\ remaining s' = (next a c cs, next a d ds).
Proof.
  intros E a. unfold remaining in E. injection E as Ec Ed.
  unfold loop_body.
  rewrite (skipn_cons_nth_error _ _ Ec), (skipn_cons_nth_error _ _ Ed).
  eexists. split; [reflexivity|]. split; [reflexivity|].
  unfold remaining, next; cbn [st_creditors st_debtors st_i st_j].
  destruct (skipn_update_nth (pay_off (n_min (amount c) (amount d))) _ _ Ec) as [c1 c2].
  destruct (skipn_update_nth (pay_off (n_min (amount c) (amount d))) _ _ Ed) as [d1 d2].
  fold a in c1, c2, d1, d2 |- *.
  destruct (n_eq (n_sub (amount c) a) n_zero), (n_eq (n_sub (amount d) a) n_zero);
    rewrite ?c1, ?c2, ?d1, ?d2; reflexivity.
Qed.

(** The loop stops exactly when one of the two arrays is used up. *)
Lemma loop_body_none (s : matching num) :
  loop_body s = None <-> fst (remaining s) = [] \/ snd (remaining s) = [].
Proof.
  unfold remaining; cbn [fst snd]. split.
  - intros E.
    destruct (skipn (st_i s) (st_creditors s)) as [|c cs] eqn:Ec; [now left|].
    destruct (skipn (st_j s) (st_debtors s)) as [|d ds] eqn:Ed; [now right|].
    destruct (@loop_body_some s c cs d ds) as (s' & E' & _).
    + unfold remaining. now rewrite Ec, Ed.
    + congruence.
  - unfold loop_body. intros [E|E]; apply skipn_nil_nth_error in E; rewrite E.
    + reflexivity.
    + now destruct (nth_error (st_creditors s) (st_i s)).
Qed.

(** When the loop finishes, the transfers it pushed are those of the greedy
    matching of what remained of the two arrays. *)
Lemma while_loop_greedy (fuel : nat) : forall (s s' : matching num),
  while_loop fuel s = Some s' ->
  st_debts s' = st_debts s
                  ++ greedy_match fuel (fst (remaining s)) (snd (remaining s)).
Proof.
  induction fuel as [|fuel IH]; intros s s' E; simpl in E.
  - destruct (loop_body s); [discriminate|]. injection E as <-.
    simpl. now rewrite app_nil_r.
  - destruct (loop_body s) as [s1|] eqn:B.
    + destruct (remaining s) as [[|c cs] [|d ds]] eqn:R;
        try (assert (loop_body s = None) as N
               by (apply loop_body_none; rewrite R; cbn; auto); congruence).
      destruct (loop_body_some R) as (s2 & B2 & D2 & R2).
      assert (s2 = s1) by congruence; subst s2.
      rewrite (IH _ _ E), D2, R2, <- app_assoc. reflexivity.
    + injection E as <-. apply loop_body_none in B.
      destruct (remaining s) as [[|c cs] [|d ds]]; cbn in B |- *;
        try now rewrite app_nil_r.
      destruct B; discriminate.
Qed.

(** The loop is a function of its variables: two runs that finish, whatever
    number of turns each was allowed, finish with the same variables. *)
Lemma while_loop_functional (fuel1 : nat) : forall fuel2 (s r1 r2 : matching num),
  while_loop fuel1 s = Some r1 -> while_loop fuel2 s = Some r2 -> r1 = r2.
Proof.
  induction fuel1 as [|fuel1 IH]; intros [|fuel2] s r1 r2 E1 E2; simpl in *;
    destruct (loop_body s) as [s1|]; try discriminate; try congruence.
  eapply IH; eassumption.
Qed.

End Generic.

Lemma filter_perm (A : Type) (f : A -> bool) (l l' : list A) :
  Permutation l l' -> Permutation (filter f l) (filter f l').
Proof.
  induction 1 as [|x l l' H IH|x y l|l l' l'' H1 IH1 H2 IH2]; simpl.
  - constructor.
  - destruct (f x); auto.
  - destruct (f x), (f y); auto using perm_swap.
  - etransitivity; eassumption.
Qed.

(** ** Objects: keys stay distinct, [Object.entries] reorders *)

Section Objects.

Variable V : Type.

Lemma define_property_keys (o : object V) (k : string) (v : V) :
  map fst (define_property o k v)
  = if in_dec string_dec k (map fst o) then map fst o else map fst o ++ [k].
Proof.
  induction o as [|[k' v'] o IH]; simpl; [reflexivity|].
  destruct (String.eqb_spec k k') as [E|Hk].
  - subst k'. destruct (string_dec k k); [reflexivity|contradiction].
  - simpl. rewrite IH.
    destruct (string_dec k' k) as [E|N]; [congruence|].
    destruct (in_dec string_dec k (map fst o)); reflexivity.
Qed.

Lemma define_property_fresh (o : object V) (k : string) (v : V) :
  ~ In k (map fst o) -> define_property o k v = o ++ [(k, v)].
Proof.
  induction o as [|[k' v'] o IH]; simpl; intros H; [reflexivity|].
  destruct (String.eqb_spec k k') as [E|Hk]; [symmetry in E; tauto|].
  rewrite IH by tauto. reflexivity.
Qed.

Lemma define_property_NoDup (o : object V) (k : string) (v : V) :
  NoDup (map fst o) -> NoDup (map fst (define_property o k v)).
Proof.
  intros H. rewrite define_property_keys.
  destruct (in_dec string_dec k (map fst o)) as [I|I]; [exact H|].
  apply NoDup_app; [exact H | repeat constructor; simpl; tauto |].
  intros x Hx [<-|[]]. contradiction.
Qed.

Lemma obj_assign_NoDup (o : object V) (k : string) (v : V) :
  NoDup (map fst o) -> NoDup (map fst (obj_assign o k v)).
Proof.
  unfold obj_assign. destruct (String.eqb k "__proto__"); [auto|].
  apply define_property_NoDup.
Qed.

Lemma obj_get_define_property (o : object V) (k k' : string) (v : V) :
  obj_get (define_property o k v) k'
  = if String.eqb k' k then Some v else obj_get o k'.
Proof.
  induction o as [|[k0 v0] o IH]; simpl.
  - reflexivity.
  - destruct (String.eqb_spec k k0) as [E|Hk]; simpl.
    + subst k0. destruct (String.eqb k' k); reflexivity.
    + rewrite IH. destruct (String.eqb_spec k' k0) as [E|Hk'];
        [subst k0|reflexivity].
      destruct (String.eqb_spec k' k); [congruence|reflexivity].
Qed.

Lemma insert_by_index_perm (e : N * (string * V)) (l : list (N * (string * V))) :
  Permutation (insert_by_index e l) (e :: l).
Proof.
  induction l as [|e' l IH]; simpl; [reflexivity|].
  destruct (fst e <? fst e')%N; [reflexivity|].
  rewrite IH. apply perm_swap.
Qed.

Lemma index_keyed_named_perm (o : object V) :
  Permutation (map snd (index_keyed o) ++ filter (@is_named V) o) o.
Proof.
  induction o as [|kv o IH]; simpl; [reflexivity|].
  unfold is_named at 1. unfold index_keyed in *.
  destruct (array_index (fst kv)); simpl.
  - now constructor.
  - symmetry. apply Permutation_cons_app. now symmetry.
Qed.

(** [Object.entries] lists every own property once. *)
Lemma Object_entries_perm (o : object V) : Permutation (Object_entries o) o.
Proof.
  unfold Object_entries.
  rewrite <- (index_keyed_named_perm o) at 3.
  apply Permutation_app_tail, Permutation_map.
  induction (index_keyed o) as [|e l IH]; simpl; [reflexivity|].
  rewrite insert_by_index_perm. now constructor.
Qed.

(** With no array-index key, [Object.entries] follows the creation order. *)
Lemma Object_entries_named (o : object V) :
  Forall (fun kv => array_index (fst kv) = None) o -> Object_entries o = o.
Proof.
  intros H. unfold Object_entries.
  assert (index_keyed o = []) as ->.
  { unfold index_keyed. induction H as [|kv o H1 H2 IH]; [reflexivity|].
    simpl. now rewrite H1. }
  simpl. induction H as [|kv o H1 H2 IH]; [reflexivity|].
  simpl. unfold is_named at 1. rewrite H1. now f_equal.
Qed.

End Objects.

(** ** Aggregation, classification and sorting, for every kind of number *)

Section Pipeline.

Variable num : Type.
Context {arith : Number num}.

(** The three variables of the [forEach] loop evolve independently. *)
Lemma fold_forEach_person (people : list (person num)) : forall acc : ledger num,
  fold_left forEach_person people acc
  = {| totalSpent := fold_left (fun t p => n_add t (spent p)) people (totalSpent acc);
       totalPaid := fold_left (fun t p => n_add t (paid p)) people (totalPaid acc);
       debtMap := fold_left (fun m p => obj_assign m (name p) (balance p)) people
                    (debtMap acc) |}.
Proof.
  induction people as [|p people IH]; intros acc; simpl.
  - now destruct acc.
  - rewrite IH. reflexivity.
Qed.

Lemma debtMap_aggregate (people : list (person num)) :
  debtMap (aggregate people)
  = fold_left (fun m p => obj_assign m (name p) (balance p)) people [].
Proof. unfold aggregate. now rewrite fold_forEach_person. Qed.

(** The keys of [debtMap] are pairwise distinct. *)
Lemma debtMap_NoDup (people : list (person num)) :
  NoDup (map fst (debtMap (aggregate people))).
Proof.
  rewrite debtMap_aggregate.
  assert (forall m : object num, NoDup (map fst m) ->
            NoDup (map fst (fold_left
              (fun m p => obj_assign m (name p) (balance p)) people m))) as G.
  { induction people as [|p people IH]; intros m Hm; simpl; [exact Hm|].
    apply IH, obj_assign_NoDup, Hm. }
  apply G. constructor.
Qed.

(** Every value in [debtMap] is the balance of a participant of that name. *)
Lemma debtMap_values (people : list (person num)) (k : string) (v : num) :
  In (k, v) (debtMap (aggregate people)) ->
  exists p, In p people /\ name p = k /\ balance p = v.
Proof.
  rewrite debtMap_aggregate.
  assert (forall m : object num,
            In (k, v) (fold_left (fun m p => obj_assign m (name p) (balance p)) people m) ->
            In (k, v) m \/ exists p, In p people /\ name p = k /\ balance p = v) as G.
  { induction people as [|p people IH]; intros m H; simpl in *; [now left|].
    destruct (IH _ H) as [I|(q & Hq & E1 & E2)].
    - unfold obj_assign in I. destruct (String.eqb (name p) "__proto__"); [now left|].
      clear -I. induction m as [|[k0 v0] m IHm]; simpl in I.
      + destruct I as [E|[]]. injection E as E1 E2. right. exists p. auto.
      + destruct (String.eqb (name p) k0); destruct I as [E|I].
        * injection E as E1 E2. right. exists p. auto.
        * left. now right.
        * left. now left.
        * destruct (IHm I) as [J|J]; [left; now right|now right].
    - right. exists q. auto. }
  intros H. destruct (G [] H) as [[]|E]. exact E.
Qed.

(** With pairwise distinct names, none of them ["__proto__"], [debtMap]
    holds one entry per participant, in ledger order. *)
Lemma debtMap_distinct_names (people : list (person num)) :
  NoDup (map name people) ->
  Forall (fun p => name p <> "__proto__"%string) people ->
  debtMap (aggregate people) = map (fun p => (name p, balance p)) people.
Proof.
  rewrite debtMap_aggregate. intros ND NP.
  assert (forall m : object num,
            (forall p, In p people -> ~ In (name p) (map fst m)) ->
            fold_left (fun m p => obj_assign m (name p) (balance p)) people m
            = m ++ map (fun p => (name p, balance p)) people) as G.
  { induction people as [|p people IH]; intros m Hm; simpl.
    - now rewrite app_nil_r.
    - inversion ND as [|? ? N1 N2]; subst. inversion NP as [|? ? P1 P2]; subst.
      unfold obj_assign at 2.
      destruct (String.eqb_spec (name p) "__proto__") as [E|_]; [contradiction|].
      rewrite define_property_fresh by (apply Hm; now left).
      rewrite IH; auto.
      + now rewrite <- app_assoc.
      + intros q Hq. rewrite map_app, in_app_iff. simpl.
        intros [I|[E|[]]].
        * apply (Hm q); [now right|exact I].
        * apply N1. rewrite E. now apply in_map. }
  apply G. intros p _ [].
Qed.

Definition creditor_of_entry (e : string * num) : party num :=
  {| party_name := fst e; amount := snd e |}.

Definition debtor_of_entry (e : string * num) : party num :=
  {| party_name := fst e; amount := n_abs (snd e) |}.

Definition is_credit (e : string * num) : bool := n_gt (snd e) n_zero.

Definition is_debit (e : string * num) : bool :=
  negb (n_gt (snd e) n_zero) && n_lt (snd e) n_zero.

(** The [for ... of] loop filters the entries into the two arrays. *)
Lemma fold_classify (es : list (string * num)) : forall cs ds : list (party num),
  fold_left classify es (cs, ds)
  = (cs ++ map creditor_of_entry (filter is_credit es),
     ds ++ map debtor_of_entry (filter is_debit es)).
Proof.
  induction es as [|e es IH]; intros cs ds; simpl.
  - now rewrite !app_nil_r.
  - unfold classify at 2, is_credit at 1, is_debit at 1. cbn [fst snd].
    destruct (n_gt (snd e) n_zero); cbn [negb andb].
    + rewrite IH. simpl. now rewrite <- app_assoc.
    + destruct (n_lt (snd e) n_zero); rewrite IH; simpl;
        now rewrite <- ?app_assoc.
Qed.

Lemma split_entries_filter (m : object num) :
  split_entries m
  = (map creditor_of_entry (filter is_credit (Object_entries m)),
     map debtor_of_entry (filter is_debit (Object_entries m))).
Proof. unfold split_entries. now rewrite fold_classify. Qed.

(** Sorting rearranges the array. *)
Lemma sort_insert_perm (A : Type) (cmp : A -> A -> num) (x : A) (l : list A) :
  Permutation (sort_insert cmp x l) (x :: l).
Proof.
  induction l as [|y l IH]; simpl; [reflexivity|].
  destruct (n_gt (cmp x y) n_zero); [|reflexivity].
  rewrite IH. apply perm_swap.
Qed.

Lemma Array_sort_perm (A : Type) (cmp : A -> A -> num) (l : list A) :
  Permutation (Array_sort cmp l) l.
Proof.
  induction l as [|x l IH]; simpl; [reflexivity|].
  rewrite sort_insert_perm. now constructor.
Qed.

(** The result, when there is one, has exactly one of its two properties. *)
Lemma calculateDebts_fuel_shape (fuel : nat) (people : list (person num)) (r : result num) :
  calculateDebts_fuel fuel people = Some r ->
  (error r = Some "Totals do not match"%string /\ debts r = None
   /\ totals_mismatch (aggregate people) = true)
  \/ (error r = None /\ totals_mismatch (aggregate people) = false
      /\ exists s, while_loop fuel (start people) = Some s /\ debts r = Some (st_debts s)).
Proof.
  unfold calculateDebts_fuel. destruct (totals_mismatch (aggregate people)).
  - intros E. injection E as <-. left. auto.
  - destruct (while_loop fuel (start people)) as [s|]; [|discriminate].
    intros E. injection E as <-. right. repeat split; eauto.
Qed.

End Pipeline.

Arguments creditor_of_entry {num}.
Arguments debtor_of_entry {num arith}.
Arguments is_credit {num arith}.
Arguments is_debit {num arith}.

(** ** Exact arithmetic *)

(** The sum of a list of rationals. *)
Definition Qsum (l : list Q) : Q := fold_right Qplus 0 l.

Section ExactArithmetic.

Local Existing Instance Exact.
Local Open Scope Q_scope.

Lemma Qlt_bool_true (a b : Q) : Qlt_bool a b = true <-> a < b.
Proof.
  unfold Qlt_bool. rewrite negb_true_iff, <- not_true_iff_false, Qle_bool_iff.
  split; [apply Qnot_le_lt | apply Qlt_not_le].
Qed.

Lemma Qlt_bool_false (a b : Q) : Qlt_bool a b = false <-> b <= a.
Proof.
  unfold Qlt_bool. rewrite negb_false_iff. apply Qle_bool_iff.
Qed.

Lemma Qeq_bool_false (a b : Q) : Qeq_bool a b = false <-> ~ a == b.
Proof.
  rewrite <- not_true_iff_false, Qeq_bool_iff. reflexivity.
Qed.

Ltac exact_ops :=
  cbn [n_zero n_cent n_add n_sub n_abs n_min n_gt n_lt n_eq Exact] in *.


Lemma Qsum_perm (l1 l2 : list Q) : Permutation l1 l2 -> Qsum l1 == Qsum l2.
Proof.
  induction 1; simpl; lra.
Qed.

(** [reduce] with [+] from [0] computes the sum. *)
Lemma fold_left_Qsum (A : Type) (f : A -> Q) (l : list A) : forall a : Q,
  fold_left (fun acc x => acc + f x) l a == a + Qsum (map f l).
Proof.
  induction l as [|x l IH]; intros a; simpl; [lra|]. rewrite IH. lra.
Qed.

Lemma spent_sum (p : person Q) : spent p == Qsum (map value (items p)).
Proof.
  unfold spent. exact_ops. rewrite fold_left_Qsum. lra.
Qed.

Lemma paid_sum (p : person Q) : paid p == Qsum (payments p).
Proof.
  unfold paid. exact_ops.
  rewrite (fold_left_Qsum (fun x => x)), map_id. lra.
Qed.

Lemma balance_sum (p : person Q) :
  balance p == Qsum (payments p) - Qsum (map value (items p)).
Proof.
  unfold balance. exact_ops. rewrite spent_sum, paid_sum. reflexivity.
Qed.

Lemma totalSpent_sum (people : list (person Q)) :
  totalSpent (aggregate people) == Qsum (map spent people).
Proof.
  unfold aggregate. rewrite fold_forEach_person. cbn [totalSpent]. exact_ops.
  rewrite fold_left_Qsum. lra.
Qed.

Lemma totalPaid_sum (people : list (person Q)) :
  totalPaid (aggregate people) == Qsum (map paid people).
Proof.
  unfold aggregate. rewrite fold_forEach_person. cbn [totalPaid]. exact_ops.
  rewrite fold_left_Qsum. lra.
Qed.

Lemma Qsum_map_ext (A : Type) (f g : A -> Q) (l : list A) :
  (forall x, f x == g x) -> Qsum (map f l) == Qsum (map g l).
Proof.
  intros H. induction l as [|x l IH]; simpl; [lra|]. rewrite IH, (H x). lra.
Qed.

(** The grand totals over all participants. *)
Definition grand_spent (people : list (person Q)) : Q :=
  Qsum (map (fun p => Qsum (map value (items p))) people).

Definition grand_paid (people : list (person Q)) : Q :=
  Qsum (map (fun p => Qsum (payments p)) people).

Lemma totalSpent_grand (people : list (person Q)) :
  totalSpent (aggregate people) == grand_spent people.
Proof.
  rewrite totalSpent_sum. apply Qsum_map_ext, spent_sum.
Qed.

Lemma totalPaid_grand (people : list (person Q)) :
  totalPaid (aggregate people) == grand_paid people.
Proof.
  rewrite totalPaid_sum. apply Qsum_map_ext, paid_sum.
Qed.


Lemma totals_mismatch_false (people : list (person Q)) :
  totals_mismatch (aggregate people) = false
  <-> Qabs (grand_spent people - grand_paid people) <= 0.01.
Proof.
  unfold totals_mismatch. exact_ops.
  rewrite Qlt_bool_false, totalSpent_grand, totalPaid_grand. reflexivity.
Qed.

(** *** The loop moves a pointer at every turn *)

(** After [min] of the two amounts is subtracted from both, one of them is
    zero. *)
Lemma min_zeroes_one (x y : Q) :
  Qeq_bool (x - Qmin x y) 0 = true \/ Qeq_bool (y - Qmin x y) 0 = true.
Proof.
  rewrite !Qeq_bool_iff.
  destruct (Q.min_spec x y) as [[_ E]|[_ E]]; rewrite E; [left|right]; lra.
Qed.

Lemma next_shrinks (c d : party Q) (cs ds : list (party Q)) :
  let a := n_min (amount c) (amount d) in
  (List.length (next a c cs) + List.length (next a d ds)
   <= List.length cs + List.length ds + 1)%nat.
Proof.
  unfold next. exact_ops.
  destruct (min_zeroes_one (amount c) (amount d)) as [E|E]; rewrite E;
    [destruct (Qeq_bool (amount d - Qmin (amount c) (amount d)) 0)
    |destruct (Qeq_bool (amount c - Qmin (amount c) (amount d)) 0)];
    simpl; lia.
Qed.

(** As many turns as there are elements left in the two arrays are enough
    for the loop to finish. *)
Lemma while_loop_enough_fuel (fuel : nat) : forall s : matching Q,
  (List.length (fst (remaining s)) + List.length (snd (remaining s)) <= fuel)%nat ->
  exists s', while_loop fuel s = Some s'.
Proof.
  induction fuel as [|fuel IH]; intros s M; simpl.
  - destruct (loop_body s) as [s1|] eqn:B; [|eauto].
    destruct (remaining s) as [[|c cs] [|d ds]] eqn:R; simpl in M; try lia;
      assert (loop_body s = None) as N
        by (apply loop_body_none; rewrite R; cbn; auto); congruence.
  - destruct (loop_body s) as [s1|] eqn:B; [|eauto].
    destruct (remaining s) as [[|c cs] [|d ds]] eqn:R;
      try (assert (loop_body s = None) as N
             by (apply loop_body_none; rewrite R; cbn; auto); congruence).
    destruct (loop_body_some R) as (s2 & B2 & _ & R2).
    assert (s2 = s1) by congruence; subst s2.
    apply IH. rewrite R2. cbn [fst snd] in *.
    pose proof (next_shrinks c d cs ds) as L. cbv zeta in L.
    cbn [List.length] in M. lia.
Qed.

Lemma remaining_start (people : list (person Q)) :
  remaining (start people) = (creditors_of people, debtors_of people).
Proof. reflexivity. Qed.

(** [calculateDebts] always returns: the error, or the transfers of the
    greedy matching of the two sorted arrays. *)
Lemma calculateDebts_exact (people : list (person Q)) :
  calculateDebts people
  = if totals_mismatch (aggregate people)
    then Some {| error := Some "Totals do not match"%string; debts := None |}
    else Some {| error := None;
                 debts := Some (greedy_match (turns people)
                                  (creditors_of people) (debtors_of people)) |}.
Proof.
  unfold calculateDebts, calculateDebts_fuel.
  destruct (totals_mismatch (aggregate people)); [reflexivity|].
  destruct (@while_loop_enough_fuel (turns people) (start people)) as [s E].
  { rewrite remaining_start. reflexivity. }
  rewrite E. apply while_loop_greedy in E.
  rewrite remaining_start in E. cbn [fst snd start st_debts] in E.
  rewrite E. reflexivity.
Qed.

(** *** The greedy matching *)

Definition positive (x : party Q) : Prop := 0 < amount x.

Definition names (xs : list (party Q)) : list string := map party_name xs.

Definition total (xs : list (party Q)) : Q := Qsum (map amount xs).

(** What the transfers of [l] move for the participant [n], on the side
    picked by [key] ([to] or [from]). *)
Definition moved (key : debt Q -> string) (n : string) (l : list (debt Q)) : Q :=
  Qsum (map debt_amount (filter (fun t => String.eqb (key t) n) l)).

Lemma greedy_match_nil_l (fuel : nat) (ds : list (party Q)) :
  greedy_match fuel [] ds = [].
Proof. now destruct fuel. Qed.

Lemma greedy_match_nil_r (fuel : nat) (cs : list (party Q)) :
  greedy_match fuel cs [] = [].
Proof. destruct fuel; [reflexivity|now destruct cs]. Qed.

Lemma next_cases (a : Q) (x : party Q) (xs : list (party Q)) :
  (amount x - a == 0 /\ next a x xs = xs)
  \/ (~ amount x - a == 0 /\ next a x xs = pay_off a x :: xs).
Proof.
  unfold next. exact_ops.
  destruct (Qeq_bool (amount x - a) 0) eqn:E.
  - left. now rewrite <- Qeq_bool_iff.
  - right. now rewrite <- Qeq_bool_false.
Qed.

Lemma next_total (a : Q) (x : party Q) (xs : list (party Q)) :
  total (next a x xs) == amount x - a + total xs.
Proof.
  unfold total.
  destruct (next_cases a x xs) as [[Z ->]|[Z ->]]; simpl; exact_ops; lra.
Qed.

Lemma next_positive (a : Q) (x : party Q) (xs : list (party Q)) :
  a <= amount x -> Forall positive xs -> Forall positive (next a x xs).
Proof.
  intros L H.
  destruct (next_cases a x xs) as [[Z ->]|[Z ->]]; [exact H|].
  constructor; [|exact H]. unfold positive. simpl. exact_ops.
  destruct (Qlt_le_dec 0 (amount x - a)) as [P|P]; [exact P|].
  exfalso. apply Z. lra.
Qed.

Lemma next_names_incl (a : Q) (x : party Q) (xs : list (party Q)) :
  incl (names (next a x xs)) (names (x :: xs)).
Proof.
  destruct (next_cases a x xs) as [[Z ->]|[Z ->]]; simpl.
  - apply incl_tl, incl_refl.
  - apply incl_refl.
Qed.

Lemma next_NoDup (a : Q) (x : party Q) (xs : list (party Q)) :
  NoDup (names (x :: xs)) -> NoDup (names (next a x xs)).
Proof.
  intros H. destruct (next_cases a x xs) as [[Z ->]|[Z ->]]; simpl.
  - now inversion H.
  - exact H.
Qed.

(** Every transfer goes from a debtor to a creditor of the two lists. *)
Lemma greedy_match_names (fuel : nat) : forall (cs ds : list (party Q)) (t : debt Q),
  In t (greedy_match fuel cs ds) ->
  In (to t) (names cs) /\ In (from t) (names ds).
Proof.
  induction fuel as [|fuel IH]; intros cs ds t H; [contradiction|].
  destruct cs as [|c cs]; [contradiction|]. destruct ds as [|d ds]; [contradiction|].
  cbn [greedy_match] in H. destruct H as [<-|H].
  - simpl. auto.
  - apply IH in H. destruct H as [H1 H2].
    split; eapply next_names_incl; eassumption.
Qed.

(** Every transfer has a positive amount. *)
Lemma greedy_match_positive (fuel : nat) : forall cs ds : list (party Q),
  Forall positive cs -> Forall positive ds ->
  Forall (fun t => 0 < debt_amount t) (greedy_match fuel cs ds).
Proof.
  induction fuel as [|fuel IH]; intros cs ds Pc Pd; [constructor|].
  destruct cs as [|c cs]; [constructor|]. destruct ds as [|d ds]; [constructor|].
  cbn [greedy_match]. inversion Pc as [|? ? Hc Pc']; inversion Pd as [|? ? Hd Pd']; subst.
  unfold positive in Hc, Hd. exact_ops.
  constructor.
  - simpl. destruct (Q.min_spec (amount c) (amount d)) as [[_ E]|[_ E]];
      rewrite E; assumption.
  - apply IH; apply next_positive; auto.
    + apply Q.le_min_l.
    + apply Q.le_min_r.
Qed.

(** At most one transfer less than there are creditors and debtors. *)
Lemma greedy_match_length (fuel : nat) : forall cs ds : list (party Q),
  cs <> [] -> ds <> [] ->
  (List.length (greedy_match fuel cs ds) + 1 <= List.length cs + List.length ds)%nat.
Proof.
  induction fuel as [|fuel IH]; intros cs ds Nc Nd;
    destruct cs as [|c cs]; try congruence; destruct ds as [|d ds]; try congruence.
  - simpl. lia.
  - cbn [greedy_match List.length].
    pose proof (next_shrinks c d cs ds) as L. cbv zeta in L.
    set (cs1 := next _ c cs) in *. set (ds1 := next _ d ds) in *.
    destruct cs1 as [|c1 cs1]; [rewrite greedy_match_nil_l; simpl; lia|].
    destruct ds1 as [|d1 ds1]; [rewrite greedy_match_nil_r; simpl; lia|].
    assert (c1 :: cs1 <> []) as N1 by discriminate.
    assert (d1 :: ds1 <> []) as N2 by discriminate.
    specialize (IH _ _ N1 N2). lia.
Qed.

Lemma moved_cons (key : debt Q -> string) (n : string) (t : debt Q) (l : list (debt Q)) :
  moved key n (t :: l)
  == (if String.eqb (key t) n then debt_amount t else 0) + moved key n l.
Proof.
  unfold moved. simpl. destruct (String.eqb (key t) n); simpl; lra.
Qed.

Lemma moved_absent (key : debt Q -> string) (n : string) (l : list (debt Q)) :
  (forall t, In t l -> key t <> n) -> moved key n l == 0.
Proof.
  induction l as [|t l IH]; intros H; [reflexivity|].
  rewrite moved_cons, IH by (intros t' Ht'; apply H; now right).
  destruct (String.eqb_spec (key t) n) as [E|_]; [|lra].
  exfalso. apply (H t); [now left|exact E].
Qed.

(** What the transfers [l] move on one side for the members of [xs]: never
    more than a member's amount, and exactly its amount when [full] holds. *)
Definition covers (key : debt Q -> string) (l : list (debt Q)) (xs : list (party Q))
    (full : Prop) : Prop :=
  forall x, In x xs ->
    moved key (party_name x) l <= amount x
    /\ (full -> moved key (party_name x) l == amount x).

(** One transfer of [a] on the side of the head [x], followed by transfers
    that cover what is left of the list, covers the list. *)
Lemma side_step (key : debt Q -> string) (a : Q) (x : party Q) (xs : list (party Q))
    (t : debt Q) (rest : list (debt Q)) (full : Prop) :
  key t = party_name x -> debt_amount t = a ->
  NoDup (names (x :: xs)) ->
  (forall t', In t' rest -> In (key t') (names (next a x xs))) ->
  covers key rest (next a x xs) full ->
  covers key (t :: rest) (x :: xs) full.
Proof.
  intros Hk Ha ND Hn IH y Hy. rewrite moved_cons, Hk, Ha.
  inversion ND as [|? ? N1 N2]; subst.
  destruct Hy as [<-|Hy].
  - rewrite String.eqb_refl.
    destruct (next_cases (debt_amount t) x xs) as [[Z E]|[Z E]]; rewrite E in *.
    + rewrite moved_absent; [split; [|intros _]; lra|].
      intros t' Ht' Et'. apply N1. rewrite <- Et'. now apply Hn.
    + destruct (IH (pay_off (debt_amount t) x)) as [I1 I2]; [now left|].
      simpl in I1, I2. exact_ops. split; [lra|]. intros F. specialize (I2 F). lra.
  - destruct (String.eqb_spec (party_name x) (party_name y)) as [E|_].
    + exfalso. apply N1. rewrite E. now apply in_map.
    + destruct (IH y) as [I1 I2].
      { destruct (next_cases (debt_amount t) x xs) as [[Z E]|[Z E]]; rewrite E;
          [exact Hy|now right]. }
      split; [lra|]. intros F. specialize (I2 F). lra.
Qed.

Lemma total_positive (xs : list (party Q)) :
  Forall positive xs -> xs <> [] -> 0 < total xs.
Proof.
  unfold total. induction 1 as [|x xs Hx H IH]; intros N; [congruence|].
  simpl. unfold positive in Hx.
  destruct xs as [|y xs]; [simpl; lra|].
  assert (0 < Qsum (map amount (y :: xs))) by (apply IH; discriminate). lra.
Qed.

Lemma covers_nothing (key : debt Q -> string) (xs others : list (party Q)) :
  Forall positive xs -> Forall positive others ->
  covers key [] xs (total xs <= total others /\ others = []).
Proof.
  intros P _ x Hx. unfold moved. simpl.
  assert (0 < amount x) by (rewrite Forall_forall in P; now apply P).
  split; [lra|]. intros [T ->].
  assert (0 < total xs) by (apply total_positive; [exact P|]; now destruct xs).
  unfold total in T at 2. simpl in T. lra.
Qed.

(** The greedy matching never gives a creditor more than its amount nor
    takes from a debtor more than its amount; the side with the smaller
    total is matched in full. *)
Lemma greedy_match_covers (fuel : nat) : forall cs ds : list (party Q),
  (List.length cs + List.length ds <= fuel)%nat ->
  Forall positive cs -> Forall positive ds ->
  NoDup (names cs) -> NoDup (names ds) ->
  covers to (greedy_match fuel cs ds) cs (total cs <= total ds)
  /\ covers from (greedy_match fuel cs ds) ds (total ds <= total cs).
Proof.
  induction fuel as [|fuel IH]; intros cs ds L Pc Pd Nc Nd.
  - destruct cs, ds; simpl in L; try lia. split; intros ? [].
  - destruct cs as [|c cs].
    { rewrite greedy_match_nil_l. split; [intros ? []|].
      intros x Hx. destruct (@covers_nothing from ds [] Pd Pc x Hx) as [H1 H2].
      split; [exact H1|]. intros T. apply H2. now split. }
    destruct ds as [|d ds].
    { rewrite greedy_match_nil_r. split; [|intros ? []].
      intros x Hx. destruct (@covers_nothing to (c :: cs) [] Pc Pd x Hx) as [H1 H2].
      split; [exact H1|]. intros T. apply H2. now split. }
    cbn [greedy_match].
    set (a := n_min (amount c) (amount d)).
    assert (a <= amount c) as Lc by apply Q.le_min_l.
    assert (a <= amount d) as Ld by apply Q.le_min_r.
    inversion Pc as [|? ? Hc Pc']; inversion Pd as [|? ? Hd Pd']; subst.
    destruct (IH (next a c cs) (next a d ds)) as [IHc IHd].
    + pose proof (next_shrinks c d cs ds) as S. cbv zeta in S. fold a in S.
      cbn [List.length] in L. lia.
    + now apply next_positive.
    + now apply next_positive.
    + now apply next_NoDup.
    + now apply next_NoDup.
    + assert (total (c :: cs) == amount c + total cs) as Tc by reflexivity.
      assert (total (d :: ds) == amount d + total ds) as Td by reflexivity.
      split.
      * apply side_step with (a := a); auto.
        { intros t' Ht'. now apply greedy_match_names in Ht'. }
        intros x Hx. destruct (IHc x Hx) as [I1 I2]. split; [exact I1|].
        intros T. apply I2. rewrite !next_total. lra.
      * apply side_step with (a := a); auto.
        { intros t' Ht'. now apply greedy_match_names in Ht'. }
        intros x Hx. destruct (IHd x Hx) as [I1 I2]. split; [exact I1|].
        intros T. apply I2. rewrite !next_total. lra.
Qed.

(** *** The two arrays the loop starts from *)

Lemma is_credit_true (e : string * Q) : is_credit e = true <-> 0 < snd e.
Proof. unfold is_credit. exact_ops. apply Qlt_bool_true. Qed.

Lemma is_debit_true (e : string * Q) : is_debit e = true <-> snd e < 0.
Proof.
  unfold is_debit. exact_ops.
  rewrite andb_true_iff, negb_true_iff, Qlt_bool_false, Qlt_bool_true.
  split; [tauto|]. intros H. split; [lra|exact H].
Qed.

Lemma creditors_of_perm (people : list (person Q)) :
  Permutation (creditors_of people)
    (map creditor_of_entry (filter is_credit (debtMap (aggregate people)))).
Proof.
  unfold creditors_of. rewrite Array_sort_perm, split_entries_filter. cbn [fst].
  apply Permutation_map, filter_perm, Object_entries_perm.
Qed.

Lemma debtors_of_perm (people : list (person Q)) :
  Permutation (debtors_of people)
    (map debtor_of_entry (filter is_debit (debtMap (aggregate people)))).
Proof.
  unfold debtors_of. rewrite Array_sort_perm, split_entries_filter. cbn [snd].
  apply Permutation_map, filter_perm, Object_entries_perm.
Qed.

Lemma creditors_of_positive (people : list (person Q)) :
  Forall positive (creditors_of people).
Proof.
  eapply Permutation_Forall; [symmetry; apply creditors_of_perm|].
  apply Forall_map, Forall_forall. intros e He.
  apply filter_In in He. now apply is_credit_true.
Qed.

Lemma debtors_of_positive (people : list (person Q)) :
  Forall positive (debtors_of people).
Proof.
  eapply Permutation_Forall; [symmetry; apply debtors_of_perm|].
  apply Forall_map, Forall_forall. intros e He.
  apply filter_In in He. destruct He as [_ He]. apply is_debit_true in He.
  unfold positive. simpl. exact_ops. rewrite Qabs_neg; lra.
Qed.

Lemma NoDup_keys_filter (f : string * Q -> bool) (es : list (string * Q)) :
  NoDup (map fst es) -> NoDup (map fst (filter f es)).
Proof.
  induction es as [|e es IH]; simpl; intros H; [constructor|].
  inversion H as [|? ? N1 N2]; subst.
  destruct (f e); simpl; auto. constructor; auto.
  intros I. apply N1. apply in_map_iff in I. destruct I as (e' & E & I).
  apply filter_In in I. rewrite <- E. apply in_map. tauto.
Qed.

Lemma creditors_of_NoDup (people : list (person Q)) :
  NoDup (names (creditors_of people)).
Proof.
  unfold names.
  eapply Permutation_NoDup;
    [symmetry; apply Permutation_map, creditors_of_perm|].
  rewrite map_map. cbn [creditor_of_entry party_name].
  apply NoDup_keys_filter, debtMap_NoDup.
Qed.

Lemma debtors_of_NoDup (people : list (person Q)) :
  NoDup (names (debtors_of people)).
Proof.
  unfold names.
  eapply Permutation_NoDup;
    [symmetry; apply Permutation_map, debtors_of_perm|].
  rewrite map_map. cbn [debtor_of_entry party_name].
  apply NoDup_keys_filter, debtMap_NoDup.
Qed.

(** Credits minus debits add up to the sum of the stored balances. *)
Lemma credits_minus_debits (es : list (string * Q)) :
  total (map creditor_of_entry (filter is_credit es))
  - total (map debtor_of_entry (filter is_debit es))
  == Qsum (map snd es).
Proof.
  unfold total. induction es as [|e es IH]; [simpl; lra|].
  cbn [filter]. unfold Qsum in *.
  destruct (is_credit e) eqn:C; destruct (is_debit e) eqn:D;
    cbn [map fold_right creditor_of_entry debtor_of_entry amount]; exact_ops.
  - apply is_credit_true in C. apply is_debit_true in D. lra.
  - lra.
  - apply is_debit_true in D. rewrite Qabs_neg; lra.
  - assert (snd e == 0); [|lra].
    assert (~ 0 < snd e) by (rewrite <- is_credit_true; congruence).
    assert (~ snd e < 0) by (rewrite <- is_debit_true; congruence).
    lra.
Qed.

Lemma arrays_total (people : list (person Q)) :
  total (creditors_of people) - total (debtors_of people)
  == Qsum (map snd (debtMap (aggregate people))).
Proof.
  rewrite <- credits_minus_debits. unfold total.
  rewrite (Qsum_perm (Permutation_map _ (creditors_of_perm people))).
  rewrite (Qsum_perm (Permutation_map _ (debtors_of_perm people))).
  reflexivity.
Qed.

Lemma balances_sum (people : list (person Q)) :
  Qsum (map balance people) == grand_paid people - grand_spent people.
Proof.
  unfold grand_paid, grand_spent.
  induction people as [|p people IH]; [simpl; lra|].
  pose proof (balance_sum p) as B.
  unfold Qsum in *. cbn [map fold_right]. lra.
Qed.

(** *** Ledgers whose names are distinct *)

Lemma In_filter_map (A B : Type) (f : B -> bool) (g : A -> B) (l : list A) (x : A) :
  In x l -> f (g x) = true -> In (g x) (filter f (map g l)).
Proof.
  intros I F. apply filter_In. split; [now apply in_map|exact F].
Qed.

(** A participant who is owed money is a creditor of that amount, and one
    who owes money a debtor of that amount. *)
Lemma creditors_of_distinct (people : list (person Q)) (p : person Q) :
  NoDup (map name people) ->
  Forall (fun p => name p <> "__proto__"%string) people ->
  In p people -> 0 < balance p ->
  In {| party_name := name p; amount := balance p |} (creditors_of people).
Proof.
  intros ND NP I B.
  eapply Permutation_in; [symmetry; apply creditors_of_perm|].
  rewrite debtMap_distinct_names by assumption.
  apply (in_map creditor_of_entry _ (name p, balance p)).
  apply (In_filter_map is_credit (fun p => (name p, balance p)) _ _ I).
  now apply is_credit_true.
Qed.

Lemma debtors_of_distinct (people : list (person Q)) (p : person Q) :
  NoDup (map name people) ->
  Forall (fun p => name p <> "__proto__"%string) people ->
  In p people -> balance p < 0 ->
  In {| party_name := name p; amount := Qabs (balance p) |} (debtors_of people).
Proof.
  intros ND NP I B.
  eapply Permutation_in; [symmetry; apply debtors_of_perm|].
  rewrite debtMap_distinct_names by assumption.
  change {| party_name := name p; amount := Qabs (balance p) |}
    with (debtor_of_entry (name p, balance p)).
  apply in_map.
  apply (In_filter_map is_debit (fun p => (name p, balance p)) _ _ I).
  now apply is_debit_true.
Qed.

Lemma arrays_total_distinct (people : list (person Q)) :
  NoDup (map name people) ->
  Forall (fun p => name p <> "__proto__"%string) people ->
  total (creditors_of people) - total (debtors_of people)
  == grand_paid people - grand_spent people.
Proof.
  intros ND NP. rewrite arrays_total, debtMap_distinct_names by assumption.
  rewrite map_map. cbn [snd]. apply balances_sum.
Qed.

(** The transfers [ds] settle every participant of the ledger: who is owed
    money receives the balance, who owes money pays the balance. *)
Definition settles (people : list (person Q)) (ds : list (debt Q)) : Prop :=
  forall p, In p people ->
    (0 < balance p -> moved to (name p) ds == balance p)
    /\ (balance p < 0 -> moved from (name p) ds == Qabs (balance p)).

Lemma filter_none (A : Type) (f : A -> bool) (l : list A) :
  (forall x, In x l -> f x = false) -> filter f l = [].
Proof.
  induction l as [|x l IH]; intros H; simpl; [reflexivity|].
  rewrite (H x) by now left. apply IH. intros y Hy. apply H. now right.
Qed.

Definition three_party_ledger : list (person Q) :=
  [ {| name := "Alice"; items := []; payments := [ 30 ] |};
    {| name := "Bob"; items := []; payments := [ 10 ] |};
    {| name := "Carol"; items := [ {| item_name := "rent"; value := 40 |} ];
       payments := [] |} ]%string.

(** ** Conservation in exact arithmetic *)


(** The transfers [ds] move no more than the balances, and settle in full
    the side of the ledger whose total is the smaller: who is owed money
    when [totalPaid <= totalSpent], who owes money when
    [totalSpent <= totalPaid]. *)
Definition settles_smaller_side (people : list (person Q)) (ds : list (debt Q)) : Prop :=
  forall p, In p people ->
    (0 < balance p ->
       moved to (name p) ds <= balance p
       /\ (grand_paid people <= grand_spent people ->
           moved to (name p) ds == balance p))
    /\ (balance p < 0 ->
          moved from (name p) ds <= Qabs (balance p)
          /\ (grand_spent people <= grand_paid people ->
              moved from (name p) ds == Qabs (balance p))).

(** In exact arithmetic, for a ledger that passes validation and whose names
    are pairwise distinct, none of them "__proto__": a participant with a
    positive balance receives at most that balance, and exactly that balance
    when [totalPaid <= totalSpent]; a participant with a negative balance
    pays at most its absolute value, and exactly that when
    [totalSpent <= totalPaid]; so when the two totals are equal the
    transfers redistribute every surplus and every deficit exactly. *)
Lemma exact_settlement (people : list (person Q)) :
  NoDup (map name people) ->
  Forall (fun p => name p <> "__proto__"%string) people ->
  Qabs (grand_spent people - grand_paid people) <= 0.01 ->
  exists ds, calculateDebts people = Some {| error := None; debts := Some ds |}
    /\ settles_smaller_side people ds
    /\ (grand_spent people == grand_paid people -> settles people ds).
Proof.
  intros ND NP V. rewrite calculateDebts_exact.
  apply totals_mismatch_false in V. rewrite V.
  eexists. split; [reflexivity|].
  destruct (@greedy_match_covers (turns people)
              (creditors_of people) (debtors_of people)) as [Hc Hd].
  - reflexivity.
  - apply creditors_of_positive.
  - apply debtors_of_positive.
  - apply creditors_of_NoDup.
  - apply debtors_of_NoDup.
  - pose proof (arrays_total_distinct ND NP) as T.
    assert (settles_smaller_side people
              (greedy_match (turns people) (creditors_of people) (debtors_of people)))
      as G.
    { intros p I. split; intros B.
      + destruct (Hc _ (creditors_of_distinct ND NP I B)) as [H1 H2].
        split; [exact H1|]. intros F. apply H2. lra.
      + destruct (Hd _ (debtors_of_distinct ND NP I B)) as [H1 H2].
        split; [exact H1|]. intros F. apply H2. lra. }
    split; [exact G|].
    intros E p I. destruct (G p I) as [G1 G2].
    split; intros B; [apply (G1 B)|apply (G2 B)]; lra.
Qed.

Lemma filter_map_swap (A B : Type) (f : B -> bool) (g : A -> B) (l : list A) :
  filter f (map g l) = map g (filter (fun x => f (g x)) l).
Proof.
  induction l as [|x l IH]; simpl; [reflexivity|].
  destruct (f (g x)); simpl; now rewrite IH.
Qed.

(** In exact arithmetic the loop finishes on every ledger: every turn
    leaves one of the two current amounts at zero, and any allowance of at
    least [creditors.length + debtors.length] turns gives the same result. *)
Lemma exact_loop_terminates (people : list (person Q)) :
  (forall x y : Q,
      Qeq_bool (x - Qmin x y) 0 = true \/ Qeq_bool (y - Qmin x y) 0 = true)
  /\ exists r, calculateDebts people = Some r
       /\ forall fuel, (turns people <= fuel)%nat ->
                      calculateDebts_fuel fuel people = Some r.
Proof.
  split; [exact min_zeroes_one|].
  unfold calculateDebts, calculateDebts_fuel.
  destruct (totals_mismatch (aggregate people)); [eauto|].
  destruct (@while_loop_enough_fuel (turns people) (start people)) as [s Hs];
    [rewrite remaining_start; reflexivity|].
  rewrite Hs. eexists; split; [reflexivity|]. intros fuel L.
  destruct (@while_loop_enough_fuel fuel (start people)) as [s' Hs'];
    [rewrite remaining_start; exact L|].
  rewrite Hs', (while_loop_functional _ _ _ Hs' Hs). reflexivity.
Qed.

End ExactArithmetic.

(** ** The last write to [debtMap] *)

Section AnyNumber.

Variable num : Type.
Context {arith : Number num}.

Lemma obj_get_obj_assign (o : object num) (k k' : string) (v : num) :
  obj_get (obj_assign o k v) k'
  = if String.eqb k "__proto__" then obj_get o k'
    else if String.eqb k' k then Some v else obj_get o k'.
Proof.
  unfold obj_assign. destruct (String.eqb k "__proto__"); [reflexivity|].
  apply obj_get_define_property.
Qed.

(** The last participant of a name other than "__proto__" is the one whose
    balance [debtMap] holds under that name. *)
Lemma debtMap_last_write (pre post : list (person num)) (p : person num) :
  name p <> "__proto__"%string ->
  (forall q, In q post -> name q <> name p) ->
  obj_get (debtMap (aggregate (pre ++ p :: post))) (name p) = Some (balance p).
Proof.
  intros NP L. rewrite debtMap_aggregate, fold_left_app. simpl.
  generalize (fold_left (fun m q => obj_assign m (name q) (balance q)) pre []).
  intros m.
  assert (forall m : object num,
            obj_get (fold_left (fun m q => obj_assign m (name q) (balance q)) post m)
              (name p) = obj_get m (name p)) as G.
  { induction post as [|q post IH]; intros m'; simpl; [reflexivity|].
    rewrite IH by (intros q' Hq'; apply L; now right).
    rewrite obj_get_obj_assign.
    destruct (String.eqb (name q) "__proto__"); [reflexivity|].
    destruct (String.eqb_spec (name p) (name q)) as [E|_]; [|reflexivity].
    exfalso. apply (L q); [now left|congruence]. }
  rewrite G, obj_get_obj_assign.
  destruct (String.eqb_spec (name p) "__proto__") as [E|_]; [contradiction|].
  now rewrite String.eqb_refl.
Qed.

(** No balance is ever held under "__proto__". *)
Lemma debtMap_no_proto (people : list (person num)) :
  obj_get (debtMap (aggregate people)) "__proto__" = None.
Proof.
  rewrite debtMap_aggregate.
  assert (forall m : object num, obj_get m "__proto__" = None ->
            obj_get (fold_left (fun m q => obj_assign m (name q) (balance q)) people m)
              "__proto__" = None) as G.
  { induction people as [|q people IH]; intros m Hm; simpl; [exact Hm|].
    apply IH. rewrite obj_get_obj_assign.
    destruct (String.eqb_spec (name q) "__proto__") as [E|N]; [exact Hm|].
    destruct (String.eqb_spec "__proto__" (name q)) as [E|_]; [congruence|exact Hm]. }
  now apply G.
Qed.

End AnyNumber.

(** ** Double-precision arithmetic: a sum that overflows *)

Section DoublePrecision.

Local Existing Instance Double.
Local Open Scope float_scope.

(** The double that [parseFloat("1e308")] returns. *)
Definition huge : float := 0x1.1ccf385ebc8ap+1023.

(** Ann paid twice 1e308 for two items of 1e308 each that Bob had: all four
    numbers are finite, and each of the two sums overflows. *)
Definition overflow_ledger : list (person float) :=
  [ {| name := "Ann"; items := []; payments := [ huge; huge ] |};
    {| name := "Bob";
       items := [ {| item_name := "first"; value := huge |};
                  {| item_name := "second"; value := huge |} ];
       payments := [] |} ]%string.

(** The variables of the loop once both amounts are [NaN]. *)
Definition stuck (ds : list (debt float)) : matching float :=
  {| st_creditors := [ {| party_name := "Ann"; amount := nan |} ];
     st_debtors := [ {| party_name := "Bob"; amount := nan |} ];
     st_i := 0; st_j := 0; st_debts := ds |}.

Lemma overflow_start :
  start overflow_ledger
  = {| st_creditors := [ {| party_name := "Ann"; amount := infinity |} ];
       st_debtors := [ {| party_name := "Bob"; amount := infinity |} ];
       st_i := 0; st_j := 0; st_debts := [] |}.
Proof. vm_compute. reflexivity. Qed.

Lemma overflow_first_turn :
  loop_body (start overflow_ledger)
  = Some (stuck [ {| from := "Bob"; to := "Ann"; debt_amount := infinity |} ]).
Proof. vm_compute. reflexivity. Qed.

(** [NaN - NaN] is not [0]: neither pointer moves. *)
Lemma stuck_turn (ds : list (debt float)) :
  loop_body (stuck ds)
  = Some (stuck (ds ++ [ {| from := "Bob"; to := "Ann"; debt_amount := nan |} ])).
Proof. reflexivity. Qed.

Lemma stuck_forever (fuel : nat) : forall ds : list (debt float),
  while_loop fuel (stuck ds) = None.
Proof.
  induction fuel as [|fuel IH]; intros ds; cbn [while_loop]; rewrite stuck_turn.
  - reflexivity.
  - apply IH.
Qed.

(** C8 fails on this ledger. Its amounts are finite numbers and add up to
    the same total on both sides; Ann's payments and Bob's items each sum to
    [Infinity], so [totalSpent - totalPaid] is [NaN] and the ledger passes
    validation; the first turn of the loop subtracts [Infinity] from
    [Infinity], and from then on both amounts are [NaN], which is never
    [=== 0]: however many turns the loop is allowed, it has not finished. *)
Theorem loop_never_ends_on_overflow :
  Forall (fun p => Forall (fun x => is_finite x = true) (payments p)
                   /\ Forall (fun it => is_finite (value it) = true) (items p))
    overflow_ledger
  /\ totalPaid (aggregate overflow_ledger) = infinity
  /\ totalSpent (aggregate overflow_ledger) = infinity
  /\ totals_mismatch (aggregate overflow_ledger) = false
  /\ forall fuel : nat, calculateDebts_fuel fuel overflow_ledger = None.
Proof.
  split; [repeat constructor|].
  split; [vm_compute; reflexivity|].
  split; [vm_compute; reflexivity|].
  assert (totals_mismatch (aggregate overflow_ledger) = false) as V
    by (vm_compute; reflexivity).
  split; [exact V|].
  intros fuel. unfold calculateDebts_fuel. rewrite V.
  assert (while_loop fuel (start overflow_ledger) = None) as ->; [|reflexivity].
  destruct fuel as [|fuel]; cbn [while_loop]; rewrite overflow_first_turn.
  - reflexivity.
  - apply stuck_forever.
Qed.

End DoublePrecision.

(** ** Participants of one name *)

Section Namesakes.

Local Existing Instance Exact.
Local Open Scope Q_scope.


(** Two participants named "__proto__", the later owing 20, and Bob, who
    is owed 10; the totals are equal. *)
Definition proto_namesakes : list (person Q) :=
  [ {| name := "__proto__"; items := []; payments := [ 10 ] |};
    {| name := "__proto__"; items := [ {| item_name := "rent"; value := 20 |} ];
       payments := [] |};
    {| name := "Bob"; items := []; payments := [ 10 ] |} ]%string.

(** C10 fails on this ledger: [debtMap] holds no balance under
    "__proto__", neither the earlier participant's nor the later one's (-20),
    so Bob, who is owed 10, is the only entry and no transfer is returned;
    the totals count all three participants. *)
Theorem proto_namesakes_keep_no_balance :
  balance {| name := "__proto__"; items := [ {| item_name := "rent"; value := 20 |} ];
             payments := [] |} == - (20)
  /\ obj_get (debtMap (aggregate proto_namesakes)) "__proto__" = None
  /\ debtMap (aggregate proto_namesakes) = [ ("Bob"%string, 10) ]
  /\ totalSpent (aggregate proto_namesakes) = 20
  /\ totalPaid (aggregate proto_namesakes) = 20
  /\ calculateDebts proto_namesakes = Some {| error := None; debts := Some [] |}.
Proof.
  repeat split; vm_compute; reflexivity.
Qed.

End Namesakes.

(** ** The scenarios of section 8 of the specification *)

Section Scenarios.

Local Open Scope string_scope.

Definition bought (v : Q) : item Q := {| item_name := "item"; value := v |}.

Example scenario_one_debtor_one_creditor :
  @calculateDebts Q Exact
    [ {| name := "Alice"; items := [ bought 10 ]; payments := [ 30%Q ] |};
      {| name := "Bob"; items := [ bought 20 ]; payments := [] |} ]
  = Some {| error := None;
            debts := Some [ {| from := "Bob"; to := "Alice"; debt_amount := 20%Q |} ] |}.
Proof. vm_compute. reflexivity. Qed.

Example scenario_largest_creditor_first :
  @calculateDebts Q Exact
    [ {| name := "Alice"; items := []; payments := [ 30%Q ] |};
      {| name := "Bob"; items := []; payments := [ 10%Q ] |};
      {| name := "Carol"; items := [ bought 40 ]; payments := [] |} ]
  = Some {| error := None;
            debts := Some [ {| from := "Carol"; to := "Alice"; debt_amount := 30%Q |};
                            {| from := "Carol"; to := "Bob"; debt_amount := 10%Q |} ] |}.
Proof. vm_compute. reflexivity. Qed.

Example scenario_totals_do_not_match :
  @calculateDebts Q Exact
    [ {| name := "Alice"; items := [ bought 10 ]; payments := [] |};
      {| name := "Bob"; items := []; payments := [ 15%Q ] |} ]
  = Some {| error := Some "Totals do not match"; debts := None |}.
Proof. vm_compute. reflexivity. Qed.

Example scenario_single_participant :
  @calculateDebts Q Exact [ {| name := "Alice"; items := []; payments := [] |} ]
  = Some {| error := None; debts := Some [] |}.
Proof. vm_compute. reflexivity. Qed.

Example scenario_both_pointers_advance :
  @calculateDebts Q Exact
    [ {| name := "Alice"; items := []; payments := [ 25%Q ] |};
      {| name := "Bob"; items := []; payments := [ 25%Q ] |};
      {| name := "Carol"; items := [ bought 25 ]; payments := [] |};
      {| name := "Dave"; items := [ bought 25 ]; payments := [] |} ]
  = Some {| error := None;
            debts := Some [ {| from := "Carol"; to := "Alice"; debt_amount := 25%Q |};
                            {| from := "Dave"; to := "Bob"; debt_amount := 25%Q |} ] |}.
Proof. vm_compute. reflexivity. Qed.

(** The first scenario in double precision. *)
Example scenario_one_debtor_one_creditor_double :
  @calculateDebts float Double
    [ {| name := "Alice"; items := [ {| item_name := "item"; value := 10%float |} ];
         payments := [ 30%float ] |};
      {| name := "Bob"; items := [ {| item_name := "item"; value := 20%float |} ];
         payments := [] |} ]
  = Some {| error := None;
            debts := Some [ {| from := "Bob"; to := "Alice"; debt_amount := 20%float |} ] |}.
Proof. vm_compute. reflexivity. Qed.

(** The other scenarios in double precision. *)
Definition bought_double (v : float) : item float := {| item_name := "item"; value := v |}.

Example scenario_largest_creditor_first_double :
  forall fuel : nat,
    @calculateDebts_fuel float Double (2 + fuel)
      [ {| name := "Alice"; items := []; payments := [ 30%float ] |};
        {| name := "Bob"; items := []; payments := [ 10%float ] |};
        {| name := "Carol"; items := [ bought_double 40 ]; payments := [] |} ]
    = Some {| error := None;
              debts := Some [ {| from := "Carol"; to := "Alice"; debt_amount := 30%float |};
                              {| from := "Carol"; to := "Bob"; debt_amount := 10%float |} ] |}.
Proof. intros fuel. destruct fuel; vm_compute; reflexivity. Qed.

Example scenario_totals_do_not_match_double :
  forall fuel : nat,
    @calculateDebts_fuel float Double fuel
      [ {| name := "Alice"; items := [ bought_double 10 ]; payments := [] |};
        {| name := "Bob"; items := []; payments := [ 15%float ] |} ]
    = Some {| error := Some "Totals do not match"; debts := None |}.
Proof. intros fuel. reflexivity. Qed.

Example scenario_single_participant_double :
  forall fuel : nat,
    @calculateDebts_fuel float Double fuel
      [ {| name := "Alice"; items := []; payments := [] |} ]
    = Some {| error := None; debts := Some [] |}.
Proof. intros fuel. destruct fuel; reflexivity. Qed.

Example scenario_both_pointers_advance_double :
  forall fuel : nat,
    @calculateDebts_fuel float Double (2 + fuel)
      [ {| name := "Alice"; items := []; payments := [ 25%float ] |};
        {| name := "Bob"; items := []; payments := [ 25%float ] |};
        {| name := "Carol"; items := [ bought_double 25 ]; payments := [] |};
        {| name := "Dave"; items := [ bought_double 25 ]; payments := [] |} ]
    = Some {| error := None;
              debts := Some [ {| from := "Carol"; to := "Alice"; debt_amount := 25%float |};
                              {| from := "Dave"; to := "Bob"; debt_amount := 25%float |} ] |}.
Proof. intros fuel. destruct fuel; vm_compute; reflexivity. Qed.

End Scenarios.

(** ** More on the transfers *)

Ltac exact_arith :=
  cbn [n_zero n_cent n_add n_sub n_abs n_min n_gt n_lt n_eq Exact] in *.

Section Transfers.

Local Existing Instance Exact.
Local Open Scope Q_scope.

Lemma obj_get_NoDup_In (V : Type) (o : object V) (k : string) (v : V) :
  NoDup (map fst o) -> In (k, v) o -> obj_get o k = Some v.
Proof.
  induction o as [|[k0 v0] o IH]; simpl; intros ND I; [contradiction|].
  inversion ND as [|? ? N1 N2]; subst.
  destruct I as [E|I].
  - injection E as E1 E2; subst. now rewrite String.eqb_refl.
  - destruct (String.eqb_spec k k0) as [E|_]; [|auto].
    exfalso. apply N1. subst k0. apply (in_map fst _ _ I).
Qed.

(** A name in [creditors] holds a positive balance in [debtMap], a name in
    [debtors] a negative one. *)
Lemma creditors_of_stored (people : list (person Q)) (n : string) :
  In n (names (creditors_of people)) ->
  exists v, obj_get (debtMap (aggregate people)) n = Some v /\ 0 < v.
Proof.
  unfold names. intros I.
  apply (Permutation_in _ (Permutation_map _ (creditors_of_perm people))) in I.
  rewrite map_map in I. apply in_map_iff in I. destruct I as ([k v] & E & I).
  simpl in E. subst k. apply filter_In in I. destruct I as [I C].
  exists v. split; [|now apply is_credit_true in C].
  apply obj_get_NoDup_In; [apply debtMap_NoDup|exact I].
Qed.

Lemma debtors_of_stored (people : list (person Q)) (n : string) :
  In n (names (debtors_of people)) ->
  exists v, obj_get (debtMap (aggregate people)) n = Some v /\ v < 0.
Proof.
  unfold names. intros I.
  apply (Permutation_in _ (Permutation_map _ (debtors_of_perm people))) in I.
  rewrite map_map in I. apply in_map_iff in I. destruct I as ([k v] & E & I).
  simpl in E. subst k. apply filter_In in I. destruct I as [I C].
  exists v. split; [|now apply is_debit_true in C].
  apply obj_get_NoDup_In; [apply debtMap_NoDup|exact I].
Qed.

(** X1. Every transfer goes to a name that holds a positive balance in
    [debtMap], from a name that holds a negative one; so no transfer goes
    from a name to itself, and a name with no entry or a zero balance is in
    no transfer. *)
Theorem transfers_from_debit_to_credit (people : list (person Q)) :
  exists r, calculateDebts people = Some r
    /\ forall ds, debts r = Some ds ->
       forall t, In t ds ->
         (exists v, obj_get (debtMap (aggregate people)) (to t) = Some v /\ 0 < v)
         /\ (exists v, obj_get (debtMap (aggregate people)) (from t) = Some v /\ v < 0)
         /\ from t <> to t.
Proof.
  rewrite calculateDebts_exact.
  destruct (totals_mismatch (aggregate people)); eexists; (split; [reflexivity|]);
    simpl; intros ds E; [discriminate|].
  injection E as <-. intros t I. apply greedy_match_names in I.
  destruct I as [I1 I2].
  destruct (creditors_of_stored _ _ I1) as (v1 & G1 & P1).
  destruct (debtors_of_stored _ _ I2) as (v2 & G2 & P2).
  split; [eauto|]. split; [eauto|].
  intros E. rewrite E in G2. rewrite G1 in G2. injection G2 as ->. lra.
Qed.

Lemma greedy_match_total (fuel : nat) : forall cs ds : list (party Q),
  (List.length cs + List.length ds <= fuel)%nat ->
  Forall positive cs -> Forall positive ds ->
  Qsum (map debt_amount (greedy_match fuel cs ds)) == Qmin (total cs) (total ds).
Proof.
  assert (forall xs : list (party Q), Forall positive xs -> 0 <= total xs) as NN.
  { intros xs P. destruct xs as [|x xs]; [unfold total; simpl; lra|].
    apply Qlt_le_weak, total_positive; [exact P|discriminate]. }
  induction fuel as [|fuel IH]; intros cs ds L Pc Pd.
  - destruct cs, ds; simpl in L; try lia. reflexivity.
  - destruct cs as [|c cs].
    { rewrite greedy_match_nil_l. specialize (NN _ Pd).
      destruct (Q.min_spec (total []) (total ds)) as [[O E]|[O E]]; rewrite E;
        unfold total in *; simpl in *; lra. }
    destruct ds as [|d ds].
    { rewrite greedy_match_nil_r. specialize (NN _ Pc).
      destruct (Q.min_spec (total (c :: cs)) (total [])) as [[O E]|[O E]]; rewrite E;
        unfold total in *; simpl in *; lra. }
    cbn [greedy_match map]. unfold Qsum. cbn [fold_right debt_amount].
    fold (Qsum (map debt_amount
                  (greedy_match fuel (next (n_min (amount c) (amount d)) c cs)
                     (next (n_min (amount c) (amount d)) d ds)))).
    set (a := n_min (amount c) (amount d)).
    assert (a <= amount c) as Lc by apply Q.le_min_l.
    assert (a <= amount d) as Ld by apply Q.le_min_r.
    inversion Pc as [|? ? Hc Pc']; inversion Pd as [|? ? Hd Pd']; subst.
    rewrite IH.
    + pose proof (next_total a c cs) as Tc. pose proof (next_total a d ds) as Td.
      assert (total (c :: cs) == amount c + total cs) as Tc' by reflexivity.
      assert (total (d :: ds) == amount d + total ds) as Td' by reflexivity.
      destruct (Q.min_spec (total (next a c cs)) (total (next a d ds))) as [[O1 E1]|[O1 E1]];
        destruct (Q.min_spec (total (c :: cs)) (total (d :: ds))) as [[O2 E2]|[O2 E2]];
        rewrite E1, E2; lra.
    + pose proof (next_shrinks c d cs ds) as S. cbv zeta in S. fold a in S.
      cbn [List.length] in L. lia.
    + now apply next_positive.
    + now apply next_positive.
Qed.

(** X2. The transfers move in total the smaller of what the creditors are owed
    and what the debtors owe. *)
Theorem transfers_move_the_smaller_total (people : list (person Q)) :
  exists r, calculateDebts people = Some r
    /\ forall ds, debts r = Some ds ->
       Qsum (map debt_amount ds)
       == Qmin (total (creditors_of people)) (total (debtors_of people)).
Proof.
  rewrite calculateDebts_exact.
  destruct (totals_mismatch (aggregate people)); eexists; (split; [reflexivity|]);
    simpl; intros ds E; [discriminate|].
  injection E as <-.
  apply greedy_match_total;
    [reflexivity|apply creditors_of_positive|apply debtors_of_positive].
Qed.




End Transfers.

(** ** The ledger handlers of [App] (src/App.jsx, lines 12-43)

    Each handler computes the next participant list from the current one
    and hands it to [setPeople]; it is modelled by the list it hands over.
    Indices are array positions, as the callers pass them (the [index] of
    [map] and the state [openPerson]).  A handler that reads a property of
    [undefined] throws a [TypeError]: it returns [None].  [parseFloat] is
    the engine's; it is a parameter here. *)

Section Handlers.

Variable num : Type.
Context {arith : Number num}.
Variable parseFloat : string -> num.

(** [items.push(x)], [payments.push(x)] on the participant's own arrays. *)
Definition push_item (x : item num) (p : person num) : person num :=
  {| name := name p; items := items p ++ [x]; payments := payments p |}.

Definition push_payment (x : num) (p : person num) : person num :=
  {| name := name p; items := items p; payments := payments p ++ [x] |}.

(** [a.splice(i, 1)] for an array position [i]: the element at [i] goes, if
    there is one. *)
Definition splice1 {A : Type} (i : nat) (l : list A) : list A :=
  firstn i l ++ skipn (S i) l.

Definition splice_item (i : nat) (p : person num) : person num :=
  {| name := name p; items := splice1 i (items p); payments := payments p |}.

Definition splice_payment (i : nat) (p : person num) : person num :=
  {| name := name p; items := items p; payments := splice1 i (payments p) |}.

(** [l.filter((_, i) => keep(i))], the first element having index [from]. *)
Fixpoint filter_index {A : Type} (keep : nat -> bool) (from : nat) (l : list A) : list A :=
  match l with
  | [] => []
  | x :: l' =>
      if keep from then x :: filter_index keep (S from) l'
      else filter_index keep (S from) l'
  end.

(** [updatedPeople[personIndex].m(...)] on a copy of [people]. *)
Definition on_person (people : list (person num)) (personIndex : nat)
    (f : person num -> person num) : option (list (person num)) :=
  match nth_error people personIndex with
  | Some _ => Some (update_nth personIndex f people)
  | None => None
  end.

Definition addPerson (people : list (person num)) (name : string) : list (person num) :=
  people ++ [{| name := name; items := []; payments := [] |}].

Definition addItem (people : list (person num)) (personIndex : nat)
    (itemName value : string) : option (list (person num)) :=
  on_person people personIndex
    (push_item {| item_name := itemName; value := parseFloat value |}).

Definition addPayment (people : list (person num)) (personIndex : nat)
    (amount : string) : option (list (person num)) :=
  on_person people personIndex (push_payment (parseFloat amount)).

Definition removeItem (people : list (person num)) (personIndex itemIndex : nat)
  : option (list (person num)) :=
  on_person people personIndex (splice_item itemIndex).

Definition removePayment (people : list (person num)) (personIndex paymentIndex : nat)
  : option (list (person num)) :=
  on_person people personIndex (splice_payment paymentIndex).

(** [people.filter((_, i) => i !== index)] *)
Definition deletePerson (people : list (person num)) (index : nat) : list (person num) :=
  filter_index (fun i => negb (Nat.eqb i index)) 0 people.

(** *** The state of [App] and the events of its controls *)

Record App : Type := {
  app_people : list (person num);
  openPerson : option nat;        (* [null] is [None] *)
  debtsDialogOpen : bool
}.

Definition initial : App :=
  {| app_people := []; openPerson := None; debtsDialogOpen := false |}.

Definition setPeople (s : App) (people : list (person num)) : App :=
  {| app_people := people; openPerson := openPerson s;
     debtsDialogOpen := debtsDialogOpen s |}.

Definition setOpenPerson (s : App) (o : option nat) : App :=
  {| app_people := app_people s; openPerson := o;
     debtsDialogOpen := debtsDialogOpen s |}.

Definition setDebtsDialogOpen (s : App) (b : bool) : App :=
  {| app_people := app_people s; openPerson := openPerson s; debtsDialogOpen := b |}.

(** What the user can do with the controls that are rendered. *)
Inductive event : Type :=
| SubmitPerson (name : string)       (* "Add Person" of the main card *)
| ClickCard (index : nat)            (* a [PersonCard] *)
| ClickDebts                         (* "Debts" *)
| CloseDebts                         (* "Close" of [DebtsDialog] *)
| CloseProfile                       (* "Close" of [PersonProfileDialog] *)
| SubmitItem (itemName : string)     (* "Add Item": [onAddItem(item, '0')] *)
| SubmitPayment (amount : string)    (* "Add Payment" *)
| ClickRemoveItem (idx : nat)        (* "X" beside an item *)
| ClickRemovePayment (idx : nat)     (* "X" beside a payment *)
| ClickDelete.                       (* "Delete Person" *)

Inductive outcome : Type :=
| Unavailable                        (* the control is not rendered *)
| Throws                             (* the handler throws *)
| Next (s : App).

Definition set_or_throw (s : App) (o : option (list (person num))) : outcome :=
  match o with
  | Some people => Next (setPeople s people)
  | None => Throws
  end.

(** The items or payments shown in the profile dialog, which renders
    [people[openPerson]]. *)
Definition shown (s : App) (i : nat) : option (person num) := nth_error (app_people s) i.

Definition handle (s : App) (e : event) : outcome :=
  match e with
  | SubmitPerson n => Next (setPeople s (addPerson (app_people s) n))
  | ClickCard index =>
      if index <? List.length (app_people s) then Next (setOpenPerson s (Some index))
      else Unavailable
  | ClickDebts => Next (setDebtsDialogOpen s true)
  | CloseDebts =>
      if debtsDialogOpen s then Next (setDebtsDialogOpen s false) else Unavailable
  | CloseProfile =>
      match openPerson s with
      | Some _ => Next (setOpenPerson s None)
      | None => Unavailable
      end
  | SubmitItem itemName =>
      match openPerson s with
      | Some i => set_or_throw s (addItem (app_people s) i itemName "0")
      | None => Unavailable
      end
  | SubmitPayment amount =>
      match openPerson s with
      | Some i => set_or_throw s (addPayment (app_people s) i amount)
      | None => Unavailable
      end
  | ClickRemoveItem idx =>
      match openPerson s with
      | Some i =>
          match shown s i with
          | Some p =>
              if idx <? List.length (items p)
              then set_or_throw s (removeItem (app_people s) i idx)
              else Unavailable
          | None => Unavailable
          end
      | None => Unavailable
      end
  | ClickRemovePayment idx =>
      match openPerson s with
      | Some i =>
          match shown s i with
          | Some p =>
              if idx <? List.length (payments p)
              then set_or_throw s (removePayment (app_people s) i idx)
              else Unavailable
          | None => Unavailable
          end
      | None => Unavailable
      end
  | ClickDelete =>
      match openPerson s with
      | Some i => Next (setOpenPerson (setPeople s (deletePerson (app_people s) i)) None)
      | None => Unavailable
      end
  end.

(** A session: the events of the user, one after the other. *)
Fixpoint run (s : App) (es : list event) : outcome :=
  match es with
  | [] => Next s
  | e :: es' =>
      match handle s e with
      | Next s' => run s' es'
      | o => o
      end
  end.

End Handlers.

Arguments Unavailable {num}.
Arguments Throws {num}.
Arguments initial {num}.
Arguments push_item {num}.
Arguments push_payment {num}.
Arguments splice_item {num}.
Arguments splice_payment {num}.

(** *** Facts on the handlers, for every kind of number *)

Section HandlerFacts.

Local Open Scope nat_scope.

Variable num : Type.
Context {arith : Number num}.
Variable parseFloat : string -> num.

Lemma update_nth_length (A : Type) (f : A -> A) (l : list A) : forall n,
  List.length (update_nth n f l) = List.length l.
Proof.
  induction l as [|x l IH]; intros [|n]; simpl; auto.
Qed.

Lemma update_nth_same (A : Type) (f : A -> A) (l : list A) : forall n x,
  nth_error l n = Some x -> nth_error (update_nth n f l) n = Some (f x).
Proof.
  induction l as [|y l IH]; intros [|n] x E; simpl in *; try discriminate.
  - congruence.
  - auto.
Qed.

Lemma update_nth_other (A : Type) (f : A -> A) (l : list A) : forall n m,
  m <> n -> nth_error (update_nth n f l) m = nth_error l m.
Proof.
  induction l as [|y l IH]; intros [|n] [|m] N; simpl; auto; congruence.
Qed.

Lemma update_nth_twice (A : Type) (f g : A -> A) (l : list A) : forall n,
  update_nth n g (update_nth n f l) = update_nth n (fun x => g (f x)) l.
Proof.
  induction l as [|y l IH]; intros [|n]; simpl; auto. now rewrite IH.
Qed.

Lemma update_nth_id (A : Type) (f : A -> A) (l : list A) : forall n x,
  nth_error l n = Some x -> f x = x -> update_nth n f l = l.
Proof.
  induction l as [|y l IH]; intros [|n] x E F; simpl in *; try discriminate.
  - congruence.
  - f_equal. eauto.
Qed.

Lemma update_nth_map (A B : Type) (f : A -> A) (g : A -> B) (l : list A) : forall n,
  (forall x, g (f x) = g x) -> map g (update_nth n f l) = map g l.
Proof.
  induction l as [|y l IH]; intros [|n] H; simpl; auto.
  - now rewrite H.
  - now rewrite IH.
Qed.

Lemma update_nth_Forall (A : Type) (P : A -> Prop) (f : A -> A) (l : list A) : forall n,
  (forall x, P x -> P (f x)) -> Forall P l -> Forall P (update_nth n f l).
Proof.
  induction l as [|y l IH]; intros [|n] H F; simpl; auto;
    inversion F; subst; constructor; auto.
Qed.

Lemma splice1_last (A : Type) (l : list A) (x : A) :
  splice1 (List.length l) (l ++ [x]) = l.
Proof.
  unfold splice1.
  rewrite (skipn_all2 (n := S (List.length l)) (l ++ [x]))
    by (rewrite length_app; simpl; lia).
  rewrite firstn_app, firstn_all, Nat.sub_diag. simpl.
  now rewrite !app_nil_r.
Qed.

Lemma splice1_beyond (A : Type) (l : list A) : forall i,
  List.length l <= i -> splice1 i l = l.
Proof.
  unfold splice1. induction l as [|y l IH]; intros [|i] L; simpl in *;
    try reflexivity; try lia.
  rewrite IH by lia. reflexivity.
Qed.

Lemma splice1_length (A : Type) (l : list A) : forall i,
  i < List.length l -> S (List.length (splice1 i l)) = List.length l.
Proof.
  unfold splice1. induction l as [|y l IH]; intros [|i] L; simpl in *; try lia.
  rewrite IH by lia. reflexivity.
Qed.

Lemma splice1_Forall (A : Type) (P : A -> Prop) (l : list A) : forall i,
  Forall P l -> Forall P (splice1 i l).
Proof.
  unfold splice1. induction l as [|y l IH]; intros [|i] F; simpl; auto;
    inversion F; subst; auto.
Qed.

Lemma filter_index_above (A : Type) (m : nat) (l : list A) : forall k,
  m < k -> filter_index (fun j => negb (Nat.eqb j m)) k l = l.
Proof.
  induction l as [|x l IH]; intros k L; cbn [filter_index]; [reflexivity|].
  destruct (Nat.eqb_spec k m); [lia|]. cbn [negb]. f_equal. apply IH. lia.
Qed.

Lemma filter_index_splice1 (A : Type) (l : list A) : forall from i,
  filter_index (fun k => negb (Nat.eqb k (from + i))) from l = splice1 i l.
Proof.
  induction l as [|y l IH]; intros from [|i]; cbn [filter_index];
    try reflexivity.
  - rewrite Nat.add_0_r, Nat.eqb_refl. cbn [negb].
    unfold splice1. cbn [firstn skipn app]. apply filter_index_above. lia.
  - destruct (Nat.eqb_spec from (from + S i)) as [E|_]; [lia|]. cbn [negb].
    unfold splice1. cbn [firstn skipn app]. f_equal.
    replace (from + S i) with (S from + i) by lia. apply IH.
Qed.

(** X12. [deletePerson] takes out the participant at [index] and nobody else;
    with an index past the end it changes nothing; and it undoes
    [addPerson] when given the position of the new participant. *)
Theorem deletePerson_takes_one_out (people : list (person num)) (index : nat) :
  deletePerson people index = firstn index people ++ skipn (S index) people
  /\ (List.length people <= index -> deletePerson people index = people)
  /\ (index < List.length people ->
      S (List.length (deletePerson people index)) = List.length people)
  /\ forall n, deletePerson (addPerson people n) (List.length people) = people.
Proof.
  assert (forall l : list (person num), forall i, deletePerson l i = splice1 i l) as D.
  { intros l i. unfold deletePerson. now rewrite <- (filter_index_splice1 l 0 i). }
  rewrite D. repeat split.
  - apply splice1_beyond.
  - apply splice1_length.
  - intros n. rewrite D. apply splice1_last.
Qed.

Lemma on_person_some (people : list (person num)) (i : nat) (p : person num)
    (f : person num -> person num) :
  nth_error people i = Some p -> on_person people i f = Some (update_nth i f people).
Proof. unfold on_person. now intros ->. Qed.

Lemma on_person_none (people : list (person num)) (i : nat) (f : person num -> person num) :
  List.length people <= i -> on_person people i f = None.
Proof.
  unfold on_person. intros L. apply nth_error_None in L. now rewrite L.
Qed.

(** X13. With a participant index past the end, the four handlers that write to
    a participant throw, and nothing is handed to [setPeople]. *)
Theorem handlers_throw_past_the_end (people : list (person num)) (personIndex : nat)
    (text1 text2 : string) (idx : nat) :
  List.length people <= personIndex ->
  addItem parseFloat people personIndex text1 text2 = None
  /\ addPayment parseFloat people personIndex text1 = None
  /\ removeItem people personIndex idx = None
  /\ removePayment people personIndex idx = None.
Proof.
  intros L. repeat split; now apply on_person_none.
Qed.

(** X10. Removing the item or payment just added, at the position it took,
    gives back the participant list as it was. *)
Theorem remove_undoes_add (people : list (person num)) (i : nat) (p : person num)
    (text1 text2 : string) :
  nth_error people i = Some p ->
  (exists added, addItem parseFloat people i text1 text2 = Some added
     /\ removeItem added i (List.length (items p)) = Some people)
  /\ (exists added, addPayment parseFloat people i text1 = Some added
        /\ removePayment added i (List.length (payments p)) = Some people).
Proof.
  intros E. split; eexists; (split; [eapply on_person_some, E|]).
  - unfold removeItem. erewrite on_person_some by (apply update_nth_same, E).
    rewrite update_nth_twice. f_equal. eapply update_nth_id; [exact E|].
    destruct p as [n its pays]. unfold splice_item, push_item. simpl.
    now rewrite splice1_last.
  - unfold removePayment. erewrite on_person_some by (apply update_nth_same, E).
    rewrite update_nth_twice. f_equal. eapply update_nth_id; [exact E|].
    destruct p as [n its pays]. unfold splice_payment, push_payment. simpl.
    now rewrite splice1_last.
Qed.

(** X11. Adding a payment changes the participant at the index, by one payment
    at the end, and nothing else: the others, the order and the names stay. *)
Theorem addPayment_changes_one (people : list (person num)) (i : nat) (p : person num)
    (amount : string) :
  nth_error people i = Some p ->
  exists added, addPayment parseFloat people i amount = Some added
    /\ nth_error added i = Some (push_payment (parseFloat amount) p)
    /\ (forall j, j <> i -> nth_error added j = nth_error people j)
    /\ List.length added = List.length people
    /\ map name added = map name people.
Proof.
  intros E. eexists. split; [eapply on_person_some, E|]. repeat split.
  - now apply update_nth_same.
  - intros j N. now apply update_nth_other.
  - apply update_nth_length.
  - now apply update_nth_map.
Qed.

End HandlerFacts.

(** *** What every session keeps *)

Section Sessions.

Local Open Scope nat_scope.

Variable num : Type.
Context {arith : Number num}.
Variable parseFloat : string -> num.

(** The profile dialog, when open, has a participant to show:
    [people[openPerson]] is not [undefined]. *)
Definition profile_defined (s : App num) : Prop :=
  match openPerson s with
  | Some i => i < List.length (app_people s)
  | None => True
  end.

(** Every item has the value [parseFloat('0')]. *)
Definition items_at_zero (people : list (person num)) : Prop :=
  Forall (fun p => Forall (fun it => value it = parseFloat "0") (items p)) people.

Definition kept (s : App num) : Prop :=
  profile_defined s /\ items_at_zero (app_people s).

Lemma set_or_throw_next (s s' : App num) (o : option (list (person num))) :
  set_or_throw s o = Next s' -> exists people, o = Some people /\ s' = setPeople s people.
Proof.
  destruct o as [people|]; simpl; intros E; [|discriminate].
  injection E as <-. eauto.
Qed.

Lemma on_person_kept (s : App num) (i : nat) (f : person num -> person num) :
  kept s -> openPerson s = Some i ->
  (forall p, Forall (fun it => value it = parseFloat "0") (items p) ->
             Forall (fun it => value it = parseFloat "0") (items (f p))) ->
  exists people, on_person (app_people s) i f = Some people
    /\ kept (setPeople s people).
Proof.
  intros [D Z] O F. unfold profile_defined in D. rewrite O in D.
  destruct (nth_error (app_people s) i) as [p|] eqn:E;
    [|apply nth_error_None in E; lia].
  exists (update_nth i f (app_people s)). split; [eapply on_person_some, E|].
  split.
  - unfold profile_defined. simpl. rewrite O, update_nth_length. exact D.
  - simpl. now apply update_nth_Forall.
Qed.

Lemma filter_index_Forall (A : Type) (P : A -> Prop) (keep : nat -> bool) (l : list A) :
  forall from, Forall P l -> Forall P (filter_index keep from l).
Proof.
  induction l as [|x l IH]; intros from F; simpl; [constructor|].
  inversion F; subst. destruct (keep from); auto.
Qed.

Lemma handle_kept (s : App num) (e : event) :
  kept s ->
  handle parseFloat s e <> Throws
  /\ forall s', handle parseFloat s e = Next s' -> kept s'.
Proof.
  intros K. pose proof K as [D Z].
  assert (forall i f,
            openPerson s = Some i ->
            (forall p, Forall (fun it => value it = parseFloat "0") (items p) ->
                       Forall (fun it => value it = parseFloat "0") (items (f p))) ->
            set_or_throw s (on_person (app_people s) i f) <> Throws
            /\ forall s', set_or_throw s (on_person (app_people s) i f) = Next s' ->
                          kept s') as W.
  { intros i f O F. destruct (on_person_kept f K O F) as (people & E & K').
    rewrite E. simpl. split; [discriminate|]. intros s' N. now injection N as <-. }
  destruct e; simpl.
  - split; [discriminate|]. intros s' N. injection N as <-. split.
    + unfold profile_defined in *. simpl. destruct (openPerson s); [|exact I].
      unfold addPerson. rewrite length_app. simpl. lia.
    + simpl. unfold addPerson. apply Forall_app. split; [exact Z|].
      repeat constructor.
  - destruct (Nat.ltb_spec index (List.length (app_people s))) as [L|L];
      split; try discriminate.
    intros s' N. injection N as <-. split; [exact L|exact Z].
  - split; [discriminate|]. intros s' N. now injection N as <-.
  - destruct (debtsDialogOpen s); split; try discriminate.
    intros s' N. now injection N as <-.
  - destruct (openPerson s); split; try discriminate.
    intros s' N. injection N as <-. split; [exact I|exact Z].
  - destruct (openPerson s) as [i|] eqn:O; [|split; discriminate].
    apply W; [reflexivity|]. intros p F. simpl. apply Forall_app. split; [exact F|].
    repeat constructor.
  - destruct (openPerson s) as [i|] eqn:O; [|split; discriminate].
    apply W; [reflexivity|]. intros p F. exact F.
  - destruct (openPerson s) as [i|] eqn:O; [|split; discriminate].
    destruct (shown s i) as [p|]; [|split; discriminate].
    destruct (idx <? List.length (items p)); [|split; discriminate].
    apply W; [reflexivity|]. intros q F. simpl. now apply splice1_Forall.
  - destruct (openPerson s) as [i|] eqn:O; [|split; discriminate].
    destruct (shown s i) as [p|]; [|split; discriminate].
    destruct (idx <? List.length (payments p)); [|split; discriminate].
    apply W; [reflexivity|]. intros q F. exact F.
  - destruct (openPerson s) as [i|] eqn:O; split; try discriminate.
    intros s' N. injection N as <-. split; [exact I|].
    simpl. now apply filter_index_Forall.
Qed.

Lemma run_kept (es : list event) : forall s : App num,
  kept s ->
  run parseFloat s es <> Throws
  /\ forall s', run parseFloat s es = Next s' -> kept s'.
Proof.
  induction es as [|e es IH]; intros s K; simpl.
  - split; [discriminate|]. intros s' N. now injection N as <-.
  - destruct (handle_kept e K) as [T H].
    destruct (handle parseFloat s e) as [| |s1]; [split; discriminate|congruence|].
    apply IH. now apply H.
Qed.

Lemma initial_kept : kept initial.
Proof. split; [exact I|constructor]. Qed.

(** X14. Whatever the user does with the controls on screen, starting from the
    empty application: no handler throws; an open profile dialog always has
    a participant to show; and every item of every participant has the
    value [parseFloat('0')], the only value the dialog passes to
    [addItem]. *)
Theorem sessions_are_safe (es : list event) :
  run parseFloat initial es <> Throws
  /\ forall s, run parseFloat initial es = Next s ->
       profile_defined s /\ items_at_zero (app_people s).
Proof.
  apply run_kept, initial_kept.
Qed.

End Sessions.

(** ** [Object.entries] and the removal of properties *)

Section EntriesFilter.

Variable V : Type.










End EntriesFilter.

(** ** [PersonCard] (src/App.jsx, lines 130-141) *)

Section Card.

Variable num : Type.
Context {arith : Number num}.

(** The wording of the card: "Owes $..." or "Is owed $...". *)
Inductive standing : Type := Owes | Is_owed.

(** What the card shows: the name, the colour class, the wording, and the
    number handed to [toFixed(2)] (the formatting itself is not modelled). *)
Record card : Type := {
  card_name : string;
  card_class : string;
  card_standing : standing;
  card_amount : num
}.

Definition PersonCard (p : person num) : card :=
  let debt :=
    n_sub (fold_left (fun acc it => n_add acc (value it)) (items p) n_zero)
          (fold_left (fun acc pay => n_add acc pay) (payments p) n_zero) in
  {| card_name := name p;
     card_class := if n_lt debt n_zero then "text-red-500" else "text-green-500";
     card_standing := if n_lt debt n_zero then Owes else Is_owed;
     card_amount := if n_lt debt n_zero then n_abs debt else debt |}.

End Card.

(** ** Handlers, cards and the settlement, in exact arithmetic *)

Section Ledger.

Local Existing Instance Exact.
Local Open Scope Q_scope.

Variable parseFloat : string -> Q.


(** *** Adding a participant *)







(** *** Payments and items *)

Lemma fold_left_last (A B : Type) (f : A -> B -> A) (l : list B) (x : B) (a : A) :
  fold_left f (l ++ [x]) a = f (fold_left f l a) x.
Proof. now rewrite fold_left_app. Qed.

(** X9. A payment added to a participant raises that participant's balance by
    the parsed amount, and an item lowers it by the parsed value; the name
    stays. *)
Theorem amounts_move_the_balance (people : list (person Q)) (i : nat) (p : person Q)
    (text1 text2 : string) :
  nth_error people i = Some p ->
  (exists added q, addPayment parseFloat people i text1 = Some added
     /\ nth_error added i = Some q /\ name q = name p
     /\ balance q == balance p + parseFloat text1)
  /\ (exists added q, addItem parseFloat people i text1 text2 = Some added
        /\ nth_error added i = Some q /\ name q = name p
        /\ balance q == balance p - parseFloat text2).
Proof.
  intros E. split; eexists; eexists;
    (split; [eapply on_person_some, E|]);
    (split; [apply update_nth_same, E|]); (split; [reflexivity|]).
  - unfold balance, paid, spent. cbn [push_payment payments items].
    rewrite fold_left_last. exact_arith. lra.
  - unfold balance, paid, spent. cbn [push_item payments items].
    rewrite fold_left_last. cbn [value]. exact_arith. lra.
Qed.

End Ledger.

(** ** Instances *)

(** A stand-in for [parseFloat] in the instances below, which only parse
    the texts "5" and "0": the number that a text of decimal digits writes,
    as a rational. It is not [parseFloat] elsewhere: a long text of digits
    is not rounded to a double, and a text that holds no number is given 0
    where [parseFloat] gives [NaN]. *)
Definition parse_digits (s : string) : Q :=
  match digits_value s 0 with
  | Some n => inject_Z (Z.of_N n)
  | None => 0
  end.

Lemma handlers_throw_past_the_end_witness :
  addItem parse_digits three_party_ledger 3 "tea" "0" = None
  /\ addPayment parse_digits three_party_ledger 3 "tea" = None
  /\ removeItem three_party_ledger 3 0 = None
  /\ removePayment three_party_ledger 3 0 = None.
Proof.
  apply (handlers_throw_past_the_end parse_digits three_party_ledger "tea" "0" 0).
  simpl. lia.
Defined.

Lemma remove_undoes_add_witness :
  (exists added, addItem parse_digits three_party_ledger 1 "5" "0" = Some added
     /\ removeItem added 1 0 = Some three_party_ledger)
  /\ (exists added, addPayment parse_digits three_party_ledger 1 "5" = Some added
        /\ removePayment added 1 1 = Some three_party_ledger).
Proof.
  apply (@remove_undoes_add Q parse_digits three_party_ledger 1
           {| name := "Bob"; items := []; payments := [ 10%Q ] |} "5" "0").
  reflexivity.
Defined.

Lemma addPayment_changes_one_witness :
  exists added, addPayment parse_digits three_party_ledger 1 "5" = Some added
    /\ nth_error added 1
       = Some (push_payment (parse_digits "5")
                 {| name := "Bob"; items := []; payments := [ 10%Q ] |})
    /\ (forall j, j <> 1%nat -> nth_error added j = nth_error three_party_ledger j)
    /\ List.length added = List.length three_party_ledger
    /\ map name added = map name three_party_ledger.
Proof.
  apply (@addPayment_changes_one Q parse_digits three_party_ledger 1). reflexivity.
Defined.


Lemma amounts_move_the_balance_witness :
  (exists added q, addPayment parse_digits three_party_ledger 1 "5" = Some added
     /\ nth_error added 1 = Some q /\ name q = "Bob"%string
     /\ (@balance Q Exact q
         == @balance Q Exact {| name := "Bob"; items := []; payments := [ 10%Q ] |}
            + parse_digits "5")%Q)
  /\ (exists added q, addItem parse_digits three_party_ledger 1 "5" "0" = Some added
        /\ nth_error added 1 = Some q /\ name q = "Bob"%string
        /\ (@balance Q Exact q
            == @balance Q Exact {| name := "Bob"; items := []; payments := [ 10%Q ] |}
               - parse_digits "0")%Q).
Proof.
  apply (@amounts_move_the_balance parse_digits three_party_ledger 1
           {| name := "Bob"; items := []; payments := [ 10%Q ] |} "5" "0").
  reflexivity.
Defined.


(** * The settlement as it runs

    From here on, what is stated of [calculateDebts] is stated for every
    kind of number, or on [Double], the numbers of the engine. *)

(** ** The loop, turn by turn *)

Section Turns.

Variable num : Type.
Context {arith : Number num}.



Lemma remaining_start_any (people : list (person num)) :
  remaining (start people) = (creditors_of people, debtors_of people).
Proof. reflexivity. Qed.

End Turns.

(** ** Aggregation *)

Section Aggregation.

Variable num : Type.
Context {arith : Number num}.

(** [l.reduce((acc, x) => acc + x, 0)]: the sum of [l], taken from the
    left, starting from [0]. *)
Definition n_sum (l : list num) : num := fold_left n_add l n_zero.

Lemma fold_left_over_map (A B C : Type) (f : A -> B -> A) (g : C -> B) (l : list C) :
  forall a : A, fold_left f (map g l) a = fold_left (fun acc x => f acc (g x)) l a.
Proof. induction l as [|x l IH]; intros a; simpl; [reflexivity|apply IH]. Qed.

Lemma spent_n_sum (p : person num) : spent p = n_sum (map value (items p)).
Proof. unfold spent, n_sum. now rewrite fold_left_over_map. Qed.

Lemma totalSpent_n_sum (people : list (person num)) :
  totalSpent (aggregate people) = n_sum (map spent people).
Proof.
  unfold aggregate, n_sum. rewrite fold_forEach_person, fold_left_over_map.
  reflexivity.
Qed.

Lemma totalPaid_n_sum (people : list (person num)) :
  totalPaid (aggregate people) = n_sum (map paid people).
Proof.
  unfold aggregate, n_sum. rewrite fold_forEach_person, fold_left_over_map.
  reflexivity.
Qed.

Lemma obj_get_In (V : Type) (o : object V) (k : string) (v : V) :
  obj_get o k = Some v -> In (k, v) o.
Proof.
  induction o as [|[k0 v0] o IH]; simpl; [discriminate|].
  destruct (String.eqb_spec k k0) as [E|_].
  - intros H. injection H as <-. subst k0. now left.
  - intros H. right. auto.
Qed.

(** C3. The balance computed for a participant is the sum of the payments
    minus the sum of the item values, both taken from the left starting
    from 0, so that an empty list counts for 0; it is what [debtMap] holds
    under the participant's name once the [forEach] callback has run for
    that participant, and still when the loop is over if no later
    participant has that name ("__proto__" apart, under which nothing is
    held); [debtMap] holds nothing but such balances; and [totalSpent] and
    [totalPaid] are the sums, in ledger order, of the participants' spent
    and paid amounts. *)
Theorem aggregation_stores_balances (people : list (person num)) :
  (forall p : person num,
     spent p = n_sum (map value (items p))
     /\ paid p = n_sum (payments p)
     /\ balance p = n_sub (n_sum (payments p)) (n_sum (map value (items p)))
     /\ (items p = [] -> spent p = n_zero)
     /\ (payments p = [] -> paid p = n_zero))
  /\ (forall (pre post : list (person num)) (p : person num),
        people = pre ++ p :: post ->
        name p <> "__proto__"%string ->
        obj_get (debtMap (aggregate (pre ++ [p]))) (name p) = Some (balance p)
        /\ ((forall q, In q post -> name q <> name p) ->
            obj_get (debtMap (aggregate people)) (name p) = Some (balance p)))
  /\ (forall (k : string) (v : num),
        obj_get (debtMap (aggregate people)) k = Some v ->
        exists p, In p people /\ name p = k /\ v = balance p)
  /\ totalSpent (aggregate people) = n_sum (map spent people)
  /\ totalPaid (aggregate people) = n_sum (map paid people).
Proof.
  split; [|split; [|split; [|split]]].
  - intros p. repeat split.
    + apply spent_n_sum.
    + unfold balance. now rewrite spent_n_sum.
    + unfold spent. now intros ->.
    + unfold paid. now intros ->.
  - intros pre post p -> NP. split.
    + apply debtMap_last_write; [exact NP|intros q []].
    + now apply debtMap_last_write.
  - intros k v G. apply obj_get_In, debtMap_values in G.
    destruct G as (p & I & E1 & E2). exists p. auto.
  - apply totalSpent_n_sum.
  - apply totalPaid_n_sum.
Qed.

End Aggregation.

Arguments n_sum {num arith}.

(** ** The two arrays and the entries of [debtMap] *)

Section Arrays.

Variable num : Type.
Context {arith : Number num}.

Lemma creditors_of_entries (people : list (person num)) :
  Permutation (creditors_of people)
    (map creditor_of_entry (filter is_credit (debtMap (aggregate people)))).
Proof.
  unfold creditors_of. rewrite Array_sort_perm, split_entries_filter. cbn [fst].
  apply Permutation_map, filter_perm, Object_entries_perm.
Qed.

Lemma debtors_of_entries (people : list (person num)) :
  Permutation (debtors_of people)
    (map debtor_of_entry (filter is_debit (debtMap (aggregate people)))).
Proof.
  unfold debtors_of. rewrite Array_sort_perm, split_entries_filter. cbn [snd].
  apply Permutation_map, filter_perm, Object_entries_perm.
Qed.




(** A creditor is a name under which [debtMap] holds a balance [> 0], with
    that balance as amount; a debtor one under which it holds a balance
    that is not [> 0] and is [< 0], with [Math.abs] of it as amount. *)
Lemma creditors_of_held (people : list (person num)) (c : party num) :
  In c (creditors_of people) ->
  exists v, obj_get (debtMap (aggregate people)) (party_name c) = Some v
    /\ n_gt v n_zero = true /\ amount c = v.
Proof.
  intros I. apply (Permutation_in _ (creditors_of_entries people)) in I.
  apply in_map_iff in I. destruct I as ([k v] & <- & I).
  apply filter_In in I. destruct I as [I C].
  exists v. split; [|split; [exact C|reflexivity]].
  apply obj_get_NoDup_In; [apply debtMap_NoDup|exact I].
Qed.

Lemma debtors_of_held (people : list (person num)) (d : party num) :
  In d (debtors_of people) ->
  exists v, obj_get (debtMap (aggregate people)) (party_name d) = Some v
    /\ n_gt v n_zero = false /\ n_lt v n_zero = true /\ amount d = n_abs v.
Proof.
  intros I. apply (Permutation_in _ (debtors_of_entries people)) in I.
  apply in_map_iff in I. destruct I as ([k v] & <- & I).
  apply filter_In in I. destruct I as [I C].
  unfold is_debit in C. cbn [snd] in C. apply andb_true_iff in C.
  destruct C as [C1 C2]. apply negb_true_iff in C1.
  exists v. split; [|split; [exact C1|split; [exact C2|reflexivity]]].
  apply obj_get_NoDup_In; [apply debtMap_NoDup|exact I].
Qed.


Lemma next_parties (a : num) (x : party num) (xs : list (party num)) :
  incl (map party_name (next a x xs)) (map party_name (x :: xs)).
Proof.
  unfold next. destruct (n_eq (n_sub (amount x) a) n_zero); simpl.
  - apply incl_tl, incl_refl.
  - apply incl_refl.
Qed.

Lemma greedy_match_parties (fuel : nat) :
  forall (cs ds : list (party num)) (t : debt num),
    In t (greedy_match fuel cs ds) ->
    In (to t) (map party_name cs) /\ In (from t) (map party_name ds).
Proof.
  induction fuel as [|fuel IH]; intros cs ds t H; [contradiction|].
  destruct cs as [|c cs]; [contradiction|]. destruct ds as [|d ds]; [contradiction|].
  cbn [greedy_match] in H. destruct H as [<-|H].
  - simpl. auto.
  - apply IH in H. destruct H as [H1 H2].
    split; eapply next_parties; eassumption.
Qed.

(** A transfer of a list that [calculateDebts] returns goes to a name under
    which [debtMap] holds a balance [> 0], from a name under which it holds
    a balance that is not [> 0] and is [< 0]. *)
Lemma returned_transfer_held (people : list (person num)) (fuel : nat)
    (r : result num) (ds : list (debt num)) (t : debt num) :
  calculateDebts_fuel fuel people = Some r -> debts r = Some ds -> In t ds ->
  (exists v, obj_get (debtMap (aggregate people)) (to t) = Some v
     /\ n_gt v n_zero = true)
  /\ (exists v, obj_get (debtMap (aggregate people)) (from t) = Some v
        /\ n_gt v n_zero = false /\ n_lt v n_zero = true).
Proof.
  intros R D I. apply calculateDebts_fuel_shape in R.
  destruct R as [(_ & N & _)|(_ & _ & s & W & D')]; [congruence|].
  apply while_loop_greedy in W. rewrite W in D'. cbn in D'.
  assert (ds = greedy_match fuel (creditors_of people) (debtors_of people)) as ->
    by congruence.
  apply greedy_match_parties in I. destruct I as [I1 I2].
  apply in_map_iff in I1. destruct I1 as (c & E1 & I1).
  apply in_map_iff in I2. destruct I2 as (d & E2 & I2).
  destruct (creditors_of_held _ _ I1) as (v1 & G1 & P1 & _).
  destruct (debtors_of_held _ _ I2) as (v2 & G2 & P2 & P3 & _).
  rewrite E1 in G1. rewrite E2 in G2. split; eauto.
Qed.

End Arrays.

(** ** Conservation *)

Section Conservation.

Variable num : Type.
Context {arith : Number num}.
















End Conservation.

(** ** The reference greedy algorithm

    Section 4.3 of the specification, on the participants themselves:
    creditors are the participants whose balance is [> 0], debtors those
    whose balance is [< 0], with its absolute value as amount; both lists
    are sorted by descending amount, equal amounts staying in the order of
    the list; then a transfer of the smaller of the two current amounts goes
    from the current debtor to the current creditor, the amount is
    subtracted from both, and a list moves on when its current amount has
    reached zero, until a list is used up. *)

Section Reference.

Variable num : Type.
Context {arith : Number num}.

Definition reference_creditors (people : list (person num)) : list (party num) :=
  map (fun p => {| party_name := name p; amount := balance p |})
      (filter (fun p => n_gt (balance p) n_zero) people).

Definition reference_debtors (people : list (person num)) : list (party num) :=
  map (fun p => {| party_name := name p; amount := n_abs (balance p) |})
      (filter (fun p => n_lt (balance p) n_zero) people).

(** Sorting by descending amount: an element goes behind the elements of
    larger amount, and before the others. *)
Fixpoint insert_descending (x : party num) (l : list (party num)) : list (party num) :=
  match l with
  | [] => [x]
  | y :: l' =>
      if n_lt (amount x) (amount y) then y :: insert_descending x l' else x :: l
  end.

Definition sort_descending (l : list (party num)) : list (party num) :=
  fold_right insert_descending [] l.

(** The matching, allowed [fuel] transfers: [None] when that many have been
    emitted and neither list is used up. *)
Fixpoint reference_match (fuel : nat) (cs ds : list (party num))
  : option (list (debt num)) :=
  match cs, ds with
  | c :: cs', d :: ds' =>
      match fuel with
      | O => None
      | S fuel' =>
          let a := n_min (amount c) (amount d) in
          option_map
            (cons {| from := party_name d; to := party_name c; debt_amount := a |})
            (reference_match fuel' (next a c cs') (next a d ds'))
      end
  | _, _ => Some []
  end.

Definition reference_transfers (fuel : nat) (people : list (person num))
  : option (list (debt num)) :=
  reference_match fuel
    (sort_descending (reference_creditors people))
    (sort_descending (reference_debtors people)).

(** The participants in the order in which [Object.entries] lists their
    names: names that are array indices first, in ascending order, then the
    others in ledger order. *)
Definition entries_order (people : list (person num)) : list (person num) :=
  map snd (Object_entries (map (fun p => (name p, p)) people)).

(** The loop emits what the matching emits on what remains of the arrays,
    and finishes when the matching does. *)
Lemma while_loop_reference (fuel : nat) : forall s : matching num,
  option_map (@st_debts num) (while_loop fuel s)
  = option_map (app (st_debts s))
      (reference_match fuel (fst (remaining s)) (snd (remaining s))).
Proof.
  induction fuel as [|fuel IH]; intros s; cbn [while_loop].
  - destruct (loop_body s) as [s1|] eqn:B.
    + destruct (remaining s) as [[|c cs] [|d ds]] eqn:R;
        try (assert (loop_body s = None) as N
               by (apply loop_body_none; rewrite R; cbn; auto); congruence).
      reflexivity.
    + apply loop_body_none in B.
      destruct (remaining s) as [[|c cs] [|d ds]]; cbn in B |- *;
        try now rewrite app_nil_r.
      destruct B; discriminate.
  - destruct (loop_body s) as [s1|] eqn:B.
    + destruct (remaining s) as [[|c cs] [|d ds]] eqn:R;
        try (assert (loop_body s = None) as N
               by (apply loop_body_none; rewrite R; cbn; auto); congruence).
      destruct (loop_body_some R) as (s2 & B2 & D2 & R2).
      assert (s2 = s1) by congruence; subst s2.
      rewrite IH, D2, R2. cbn [fst snd reference_match].
      destruct (reference_match fuel _ _) as [l|]; cbn; [|reflexivity].
      now rewrite <- app_assoc.
    + apply loop_body_none in B.
      destruct (remaining s) as [[|c cs] [|d ds]]; cbn in B |- *;
        try now rewrite app_nil_r.
      destruct B; discriminate.
Qed.

(** Changing the values of an object does not change the order in which
    [Object.entries] lists its keys. *)
Lemma insert_by_index_values (V W : Type) (f : V -> W) (e : N * (string * V))
    (l : list (N * (string * V))) :
  map (fun e => (fst e, (fst (snd e), f (snd (snd e))))) (insert_by_index e l)
  = insert_by_index (fst e, (fst (snd e), f (snd (snd e))))
      (map (fun e => (fst e, (fst (snd e), f (snd (snd e))))) l).
Proof.
  induction l as [|e' l IH]; simpl; [reflexivity|].
  destruct (fst e <? fst e')%N; simpl; [reflexivity|]. now rewrite IH.
Qed.

Lemma Object_entries_values (V W : Type) (f : V -> W) (o : object V) :
  Object_entries (map (fun kv => (fst kv, f (snd kv))) o)
  = map (fun kv => (fst kv, f (snd kv))) (Object_entries o).
Proof.
  unfold Object_entries. rewrite map_app. f_equal.
  - assert (fold_right insert_by_index []
              (index_keyed (map (fun kv => (fst kv, f (snd kv))) o))
            = map (fun e => (fst e, (fst (snd e), f (snd (snd e)))))
                (fold_right insert_by_index [] (index_keyed o))) as ->.
    { unfold index_keyed. induction o as [|[k v] o IH]; [reflexivity|].
      cbn [map flat_map fst snd].
      destruct (array_index k); cbn [app fold_right]; [|exact IH].
      rewrite insert_by_index_values, <- IH. reflexivity. }
    rewrite !map_map. reflexivity.
  - rewrite filter_map_swap. f_equal.
Qed.

Lemma entries_of_distinct (people : list (person num)) :
  NoDup (map name people) ->
  Forall (fun p => name p <> "__proto__"%string) people ->
  Object_entries (debtMap (aggregate people))
  = map (fun p => (name p, balance p)) (entries_order people).
Proof.
  intros ND NP. rewrite debtMap_distinct_names by assumption.
  unfold entries_order.
  assert (map (fun p => (name p, balance p)) people
          = map (fun kv : string * person num => (fst kv, balance (snd kv)))
              (map (fun p => (name p, p)) people)) as -> by now rewrite map_map.
  rewrite Object_entries_values, map_map.
  apply map_ext_in. intros [k p] I. cbn [fst snd].
  apply (Permutation_in _ (Object_entries_perm _)) in I.
  apply in_map_iff in I. destruct I as (q & E & _). now injection E as <- <-.
Qed.

Lemma entries_order_perm (people : list (person num)) :
  Permutation (entries_order people) people.
Proof.
  unfold entries_order. rewrite Object_entries_perm, map_map. cbn [snd].
  now rewrite map_id.
Qed.

Lemma entries_order_named (people : list (person num)) :
  Forall (fun p => array_index (name p) = None) people ->
  entries_order people = people.
Proof.
  intros H. unfold entries_order. rewrite Object_entries_named.
  - rewrite map_map. cbn [snd]. apply map_id.
  - apply Forall_map. exact H.
Qed.

(** A kind of number on which no value is both [> 0] and [< 0]. *)
Definition signs_exclude : Prop :=
  forall v : num, n_gt v n_zero = true -> n_lt v n_zero = false.

Lemma arrays_are_reference (people : list (person num)) :
  signs_exclude ->
  NoDup (map name people) ->
  Forall (fun p => name p <> "__proto__"%string) people ->
  creditors_of people
  = Array_sort by_amount_desc (reference_creditors (entries_order people))
  /\ debtors_of people
     = Array_sort by_amount_desc (reference_debtors (entries_order people)).
Proof.
  intros X ND NP. unfold creditors_of, debtors_of.
  rewrite split_entries_filter, entries_of_distinct by assumption.
  cbn [fst snd]. rewrite !filter_map_swap, !map_map.
  split; [reflexivity|].
  unfold reference_debtors. f_equal. f_equal. apply filter_ext. intros p.
  unfold is_debit. cbn [snd].
  destruct (n_gt (balance p) n_zero) eqn:G; [|reflexivity].
  now rewrite (X _ G).
Qed.

(** A kind of number on which the comparator [b.amount - a.amount] sorts
    the creditors and the debtors of a ledger by descending amount. *)
Definition comparator_sorts : Prop :=
  forall people : list (person num),
    Array_sort by_amount_desc (reference_creditors people)
    = sort_descending (reference_creditors people)
    /\ Array_sort by_amount_desc (reference_debtors people)
       = sort_descending (reference_debtors people).

Lemma calculateDebts_is_reference (people : list (person num)) (fuel : nat) :
  signs_exclude -> comparator_sorts ->
  NoDup (map name people) ->
  Forall (fun p => name p <> "__proto__"%string) people ->
  totals_mismatch (aggregate people) = false ->
  calculateDebts_fuel fuel people
  = option_map (fun ds => {| error := None; debts := Some ds |})
      (reference_transfers fuel (entries_order people)).
Proof.
  intros X S ND NP V. unfold calculateDebts_fuel. rewrite V.
  pose proof (while_loop_reference fuel (start people)) as W.
  rewrite remaining_start_any in W. cbn [fst snd start st_debts] in W.
  destruct (arrays_are_reference X ND NP) as [Ec Ed].
  destruct (S (entries_order people)) as [Sc Sd].
  unfold reference_transfers. rewrite <- Sc, <- Sd, <- Ec, <- Ed.
  destruct (while_loop fuel (start people)) as [s|];
    destruct (reference_match fuel (creditors_of people) (debtors_of people)) as [l|];
    cbn in W |- *; congruence.
Qed.

End Reference.

(** * Double precision

    Facts of IEEE-754 binary64 arithmetic that [calculateDebts] relies on,
    from the specification of the primitive operations ([SpecFloat]). *)

Section DoubleFacts.

Local Open Scope Z_scope.
Local Abbreviation positive := BinNums.positive (only parsing).

(** *** Rounding never turns a non-zero number into zero *)

Lemma digits_succ (p : positive) :
  digits2_pos (Pos.succ p) = digits2_pos p
  \/ digits2_pos (Pos.succ p) = Pos.succ (digits2_pos p).
Proof.
  induction p as [p IH|p IH|]; cbn [Pos.succ digits2_pos]; auto.
  destruct IH as [-> | ->]; auto.
Qed.

Lemma digits_iter_xO (m k : positive) :
  digits2_pos (Pos.iter xO m k) = (digits2_pos m + k)%positive.
Proof.
  induction k as [|k IH] using Pos.peano_ind.
  - cbn. lia.
  - rewrite Pos.iter_succ. cbn [digits2_pos]. rewrite IH. lia.
Qed.

(** A mantissa of [k] binary digits. *)
Definition wide (k : positive) (r : shr_record) : Prop :=
  exists m, shr_m r = Zpos m /\ digits2_pos m = k.

Lemma shr_1_wide (k : positive) (r : shr_record) :
  wide (Pos.succ k) r -> wide k (shr_1 r).
Proof.
  intros (m & E & D). destruct r as [z b c]. cbn [shr_m] in E. subst z.
  destruct m as [p|p|]; cbn [digits2_pos] in D.
  - exists p. split; [reflexivity|lia].
  - exists p. split; [reflexivity|lia].
  - lia.
Qed.

Lemma iter_shr_1_wide (n : positive) : forall (k : positive) (r : shr_record),
  wide (k + n) r -> wide k (iter_pos shr_1 n r).
Proof.
  induction n as [n IH|n IH|]; intros k r W; cbn [iter_pos].
  - apply IH, IH, shr_1_wide.
    replace (Pos.succ (k + n + n)) with (k + n~1)%positive by lia. exact W.
  - apply IH, IH. replace (k + n + n)%positive with (k + n~0)%positive by lia. exact W.
  - apply shr_1_wide. replace (Pos.succ k) with (k + 1)%positive by lia. exact W.
Qed.

(** A number that is neither a zero nor [NaN], of sign [s]. *)
Definition nonzero_signed (s : bool) (r : spec_float) : Prop :=
  match r with
  | S754_finite s' _ _ | S754_infinity s' => s' = s
  | _ => False
  end.

Lemma fexp_eq (x : Z) : fexp prec emax x = Z.max (x - 53) (-1074).
Proof. reflexivity. Qed.

Lemma round_wide (k : positive) (r : shr_record) :
  wide k r ->
  exists m, round_nearest_even (shr_m r) (loc_of_shr_record r) = Zpos m
    /\ (digits2_pos m = k \/ digits2_pos m = Pos.succ k).
Proof.
  intros (m & E & D). rewrite E.
  assert (exists m', (Zpos m + 1) = Zpos m'
            /\ (digits2_pos m' = k \/ digits2_pos m' = Pos.succ k)) as (m' & E' & D').
  { exists (Pos.succ m). split; [lia|]. rewrite <- D. apply digits_succ. }
  unfold round_nearest_even.
  destruct (loc_of_shr_record r) as [|[]]; try (exists m; now auto);
    try (exists m'; now auto).
  destruct (Z.even (Zpos m)); [exists m|exists m']; auto.
Qed.

(** The last step of rounding keeps a mantissa that needs no shift, or a
    shift by one digit. *)
Lemma second_shift (m : positive) (e : Z) :
  fexp prec emax (Zpos (digits2_pos m) + e) - e <= 0
  \/ (fexp prec emax (Zpos (digits2_pos m) + e) - e = 1 /\ 2 <= Zpos (digits2_pos m)) ->
  exists m', shr_m (fst (shr_fexp prec emax (Zpos m) e loc_Exact)) = Zpos m'.
Proof.
  intros H. unfold shr_fexp. cbn [Zdigits2 shr_record_of_loc].
  destruct H as [H|[H D]].
  - destruct (fexp prec emax (Zpos (digits2_pos m) + e) - e) as [|p|p];
      try lia; cbn [shr shr_m fst]; eauto.
  - rewrite H. cbn [shr iter_pos fst].
    destruct (@shr_1_wide (Pos.pred (digits2_pos m))
                {| shr_m := Zpos m; shr_r := false; shr_s := false |})
      as (m' & E & _).
    + exists m. split; [reflexivity|]. lia.
    + eauto.
Qed.

Lemma binary_round_aux_nonzero (s : bool) (m : positive) (e : Z) (l : location) :
  -1074 <= e ->
  nonzero_signed s (binary_round_aux prec emax s (Zpos m) e l).
Proof.
  intros He. unfold binary_round_aux.
  destruct (shr_fexp prec emax (Zpos m) e l) as [mrs' e'] eqn:S1.
  assert (exists k, wide k mrs' /\ -1074 <= e' /\ Zpos k <= 53
                    /\ fexp prec emax (Zpos k + e') <= e') as (k & W & He' & Hk & Hf).
  { unfold shr_fexp in S1. cbn [Zdigits2] in S1. rewrite fexp_eq in S1.
    destruct (Z.max (Zpos (digits2_pos m) + e - 53) (-1074) - e) as [|p|p] eqn:S;
      cbn [shr] in S1; injection S1 as <- <-.
    - exists (digits2_pos m). split; [|split; [exact He|split]].
      + exists m. split; [now destruct l as [|[]]|reflexivity].
      + lia.
      + rewrite fexp_eq. lia.
    - assert (Zpos (digits2_pos m) = 53 + Zpos p) as D by lia.
      exists 53%positive. split; [|split; [lia|split]].
      + apply iter_shr_1_wide. exists m. split; [now destruct l as [|[]]|lia].
      + lia.
      + rewrite fexp_eq. lia.
    - exists (digits2_pos m). split; [|split; [exact He|split]].
      + exists m. split; [now destruct l as [|[]]|reflexivity].
      + lia.
      + rewrite fexp_eq. lia. }
  destruct (round_wide W) as (m2 & -> & D2).
  destruct (@second_shift m2 e') as (m3 & E3).
  - rewrite fexp_eq in *. destruct D2 as [D2|D2]; rewrite D2; lia.
  - destruct (shr_fexp prec emax (Zpos m2) e' loc_Exact) as [mrs'' e''].
    cbn [fst] in E3. rewrite E3.
    destruct (Z.leb e'' _); reflexivity.
Qed.

(** A non-zero integer mantissa with an exponent in range rounds to a
    number that is not zero and has its sign. *)
Lemma binary_round_nonzero (s : bool) (m : positive) (e : Z) :
  -1074 <= e -> nonzero_signed s (binary_round prec emax s m e).
Proof.
  intros He. unfold binary_round, shl_align. rewrite fexp_eq.
  destruct (Z.max (Zpos (digits2_pos m) + e - 53) (-1074) - e) as [|p|p] eqn:S;
    apply binary_round_aux_nonzero; lia.
Qed.

(** *** Numbers the engine can hold *)

Lemma valid_finite (s : bool) (m : positive) (e : Z) :
  valid_binary (S754_finite s m e) = true ->
  Z.max (Zpos (digits2_pos m) + e - 53) (-1074) = e /\ e <= 971.
Proof.
  cbn [SpecFloat.valid_binary]. unfold bounded, canonical_mantissa.
  rewrite andb_true_iff, Z.eqb_eq, Z.leb_le, fexp_eq. auto.
Qed.

Lemma shl_align_same (m : positive) (e : Z) : shl_align m e e = (m, e).
Proof. unfold shl_align. now rewrite Z.sub_diag. Qed.

Lemma shl_align_below (m : positive) (e e' : Z) :
  e' < e -> exists d, Zpos d = e - e' /\ shl_align m e e' = (Pos.iter xO m d, e').
Proof.
  intros L. unfold shl_align.
  destruct (e' - e) as [|p|p] eqn:E; try lia.
  exists p. split; [lia|reflexivity].
Qed.

(** Two numbers whose mantissas are equal once aligned are the same. *)
Lemma aligned_equal (mx my : positive) (ex ey : Z) :
  Z.max (Zpos (digits2_pos mx) + ex - 53) (-1074) = ex ->
  Z.max (Zpos (digits2_pos my) + ey - 53) (-1074) = ey ->
  fst (shl_align mx ex (Z.min ex ey)) = fst (shl_align my ey (Z.min ex ey)) ->
  mx = my /\ ex = ey.
Proof.
  intros Cx Cy E.
  destruct (Z.lt_trichotomy ex ey) as [L|[L|L]].
  - exfalso. rewrite Z.min_l in E by lia. rewrite shl_align_same in E.
    destruct (@shl_align_below my ey ex L) as (d & Hd & S). rewrite S in E.
    cbn [fst] in E. pose proof (digits_iter_xO my d) as D. rewrite <- E in D. lia.
  - subst ey. rewrite Z.min_id, !shl_align_same in E. auto.
  - exfalso. rewrite Z.min_r in E by lia. rewrite shl_align_same in E.
    destruct (@shl_align_below mx ex ey L) as (d & Hd & S). rewrite S in E.
    cbn [fst] in E. pose proof (digits_iter_xO mx d) as D. rewrite E in D. lia.
Qed.

Definition is_zero_sf (x : spec_float) : Prop :=
  match x with S754_zero _ => True | _ => False end.

Lemma binary_normalize_zero (z e : Z) :
  -1074 <= e ->
  is_zero_sf (binary_normalize prec emax z e false) -> z = 0.
Proof.
  intros He. destruct z as [|p|p]; cbn [binary_normalize]; [reflexivity| |];
    intros H.
  - pose proof (@binary_round_nonzero false p e He) as N.
    destruct (binary_round prec emax false p e); contradiction.
  - pose proof (@binary_round_nonzero true p e He) as N.
    destruct (binary_round prec emax true p e); contradiction.
Qed.

Lemma SFeqb_zero (x : spec_float) :
  SFeqb x (S754_zero false) = true <-> is_zero_sf x.
Proof.
  destruct x as [s|s| |s m e]; cbn; split; try discriminate; try tauto;
    destruct s; discriminate.
Qed.

(** *** Subtraction *)

(** [x - x] is [+0], or [NaN] when [x] is infinite or [NaN]. *)
Lemma SFsub_diag (x : spec_float) :
  SF64sub x x = S754_zero false \/ SF64sub x x = S754_nan.
Proof.
  destruct x as [s|s| |s m e]; cbn [SF64sub SFsub].
  - left. now destruct s.
  - right. now destruct s.
  - now right.
  - left. rewrite Z.sub_diag. reflexivity.
Qed.

(** A difference that is zero is the difference of a number and itself, or
    of two zeros. *)
Lemma SFsub_zero (x y : spec_float) :
  valid_binary x = true -> valid_binary y = true ->
  is_zero_sf (SF64sub x y) -> x = y \/ (is_zero_sf x /\ is_zero_sf y).
Proof.
  intros Vx Vy.
  destruct x as [sx|sx| |sx mx ex], y as [sy|sy| |sy my ey];
    try (cbn; tauto); try (destruct sx, sy; cbn; tauto).
  apply valid_finite in Vx, Vy. destruct Vx as [Cx _], Vy as [Cy _].
  cbn [SF64sub SFsub]. intros H.
  apply binary_normalize_zero in H; [|lia].
  left.
  assert (sx = sy /\ fst (shl_align mx ex (Z.min ex ey))
                     = fst (shl_align my ey (Z.min ex ey))) as [-> E].
  { destruct sx, sy; cbn [cond_Zopp] in H; split; try reflexivity; lia. }
  destruct (aligned_equal mx my Cx Cy E) as [-> ->]. reflexivity.
Qed.

(** The sign of a rounded result, when it has one. *)
Definition signed (s : bool) (r : spec_float) : Prop :=
  match r with
  | S754_zero s' | S754_infinity s' | S754_finite s' _ _ => s' = s
  | S754_nan => True
  end.

Lemma binary_round_signed (s : bool) (m : positive) (e : Z) :
  signed s (binary_round prec emax s m e).
Proof.
  unfold binary_round. destruct (shl_align _ _ _) as [mz ez].
  unfold binary_round_aux.
  destruct (shr_fexp prec emax (Zpos mz) ez loc_Exact) as [mrs' e'].
  destruct (shr_fexp prec emax _ e' loc_Exact) as [mrs'' e''].
  destruct (shr_m mrs''); simpl; auto.
  destruct (Z.leb e'' _); simpl; auto.
Qed.

Lemma signed_not_lt_zero (r : spec_float) :
  signed false r -> SFltb r (S754_zero false) = false.
Proof. destruct r as [s|s| |s m e]; simpl; intros H; subst; reflexivity. Qed.

(** [x - y] and [y - x] are not both negative. *)
Lemma SFsub_antisym (x y : spec_float) :
  SFltb (SF64sub x y) (S754_zero false) = true ->
  SFltb (SF64sub y x) (S754_zero false) = false.
Proof.
  destruct x as [sx|sx| |sx mx ex], y as [sy|sy| |sy my ey];
    try (destruct sx, sy; cbn; congruence);
    try (destruct sx; cbn; congruence);
    try (destruct sy; cbn; congruence);
    try (cbn; congruence).
  cbn [SF64sub SFsub]. rewrite (Z.min_comm ey ex).
  set (ez := Z.min ex ey).
  set (X := cond_Zopp sx (Zpos (fst (shl_align mx ex ez)))).
  set (Y := cond_Zopp sy (Zpos (fst (shl_align my ey ez)))).
  assert (Z.sub Y X = Z.opp (Z.sub X Y)) as -> by lia.
  destruct (Z.sub X Y) as [|p|p]; cbn [Z.opp binary_normalize].
  - discriminate.
  - intros H. rewrite signed_not_lt_zero in H; [discriminate|apply binary_round_signed].
  - intros _. apply signed_not_lt_zero, binary_round_signed.
Qed.

(** *** Addition *)

(** A sum is [-0] only when both terms are. *)
Lemma SFadd_neg_zero (x y : spec_float) :
  valid_binary x = true -> valid_binary y = true ->
  x <> S754_zero true -> SF64add x y <> S754_zero true.
Proof.
  intros Vx Vy Nx.
  destruct x as [sx|sx| |sx mx ex], y as [sy|sy| |sy my ey];
    try (destruct sx, sy; cbn; congruence);
    try (destruct sx; cbn; congruence);
    try (destruct sy; cbn; congruence);
    try (cbn; congruence).
  apply valid_finite in Vx, Vy. destruct Vx as [Cx _], Vy as [Cy _].
  cbn [SF64add SFadd].
  destruct (cond_Zopp sx _ + cond_Zopp sy _) as [|p|p]; cbn [binary_normalize];
    [discriminate| |].
  - pose proof (@binary_round_nonzero false p (Z.min ex ey)) as N.
    destruct (binary_round prec emax false p (Z.min ex ey)); try discriminate.
    exfalso. apply N. lia.
  - pose proof (@binary_round_nonzero true p (Z.min ex ey)) as N.
    destruct (binary_round prec emax true p (Z.min ex ey)); try discriminate.
    exfalso. apply N. lia.
Qed.

End DoubleFacts.

(** ** The same facts on the numbers of the engine *)

Section DoubleNumbers.

Local Open Scope float_scope.

(** [+0] or [NaN]. *)
Definition zero_or_nan (x : float) : Prop :=
  Prim2SF x = S754_zero false \/ Prim2SF x = S754_nan.

Lemma sub_diag (x : float) : zero_or_nan (x - x).
Proof. unfold zero_or_nan. rewrite sub_spec. apply SFsub_diag. Qed.

(** Neither [+0] nor [NaN] is [> 0] or [< 0], and neither is more than
    0.01 in absolute value. *)
Lemma zero_or_nan_signs (x : float) :
  zero_or_nan x ->
  (0 <? x) = false /\ (x <? 0) = false
  /\ (0x1.47ae147ae147bp-7 <? abs x) = false.
Proof.
  intros H. rewrite !ltb_spec, abs_spec.
  destruct H as [-> | ->]; repeat split; reflexivity.
Qed.

Lemma sub_antisym (x y : float) : (x - y <? 0) = true -> (y - x <? 0) = false.
Proof. rewrite !ltb_spec, !sub_spec. apply SFsub_antisym. Qed.

(** No number is both [> 0] and [< 0]. *)
Lemma gt_zero_not_lt (b : float) : (0 <? b) = true -> (b <? 0) = false.
Proof.
  rewrite !ltb_spec. change (Prim2SF 0) with (S754_zero false).
  destruct (Prim2SF b) as [[]|[]| |[] m e]; cbn; intros H;
    try reflexivity; discriminate H.
Qed.

(** A number that [=== 0] is neither [> 0] nor [< 0]. *)
Lemma eq_zero_signs (b : float) :
  (b =? 0) = true -> (0 <? b) = false /\ (b <? 0) = false.
Proof.
  rewrite eqb_spec, !ltb_spec. change (Prim2SF 0) with (S754_zero false).
  destruct (Prim2SF b) as [[]|[]| |[] m e]; cbn; intros H;
    try discriminate H; split; reflexivity.
Qed.

Lemma sub_zero_r (x : float) : x - 0 = x.
Proof.
  apply Prim2SF_inj. rewrite sub_spec. change (Prim2SF 0) with (S754_zero false).
  destruct (Prim2SF x) as [[]|[]| |[] m e]; reflexivity.
Qed.

(** A number other than [-0]. *)
Definition not_neg_zero (x : float) : Prop := Prim2SF x <> S754_zero true.

Lemma add_not_neg_zero (x y : float) : not_neg_zero x -> not_neg_zero (x + y).
Proof.
  unfold not_neg_zero. rewrite add_spec.
  apply SFadd_neg_zero; apply Prim2SF_valid.
Qed.

Lemma fold_add_not_neg_zero (l : list float) : forall acc : float,
  not_neg_zero acc -> not_neg_zero (fold_left PrimFloat.add l acc).
Proof.
  induction l as [|x l IH]; intros acc H; simpl; [exact H|].
  apply IH, add_not_neg_zero, H.
Qed.

(** Two sums whose difference [=== 0] are the same number. *)
Lemma sums_equal (l1 l2 : list float) :
  (fold_left PrimFloat.add l1 0 - fold_left PrimFloat.add l2 0 =? 0) = true ->
  fold_left PrimFloat.add l1 0 = fold_left PrimFloat.add l2 0.
Proof.
  intros H. rewrite eqb_spec in H. change (Prim2SF 0) with (S754_zero false) in H.
  apply SFeqb_zero in H. rewrite sub_spec in H.
  apply SFsub_zero in H; try apply Prim2SF_valid.
  apply Prim2SF_inj. destruct H as [H|[H1 H2]]; [exact H|].
  assert (not_neg_zero 0) as Z by (vm_compute; discriminate).
  pose proof (fold_add_not_neg_zero l1 Z) as N1.
  pose proof (fold_add_not_neg_zero l2 Z) as N2.
  unfold not_neg_zero in N1, N2.
  destruct (Prim2SF (fold_left PrimFloat.add l1 0)) as [[]| | |]; try contradiction;
    destruct (Prim2SF (fold_left PrimFloat.add l2 0)) as [[]| | |]; try contradiction;
    reflexivity.
Qed.

End DoubleNumbers.

(** ** Positive amounts in double precision *)

Section PositiveDoubles.

Local Open Scope Z_scope.
Local Abbreviation positive := BinNums.positive (only parsing).

(** A number that is [> 0]: finite or infinite, of positive sign. *)
Definition pos_sf (x : spec_float) : Prop :=
  match x with
  | S754_finite false _ _ | S754_infinity false => True
  | _ => False
  end.

Lemma SFltb_zero_pos (x : spec_float) :
  SFltb (S754_zero false) x = true <-> pos_sf x.
Proof.
  destruct x as [[]|[]| |[] m e]; cbn; split; try discriminate; tauto.
Qed.

Lemma nonzero_signed_pos (x : spec_float) : nonzero_signed false x -> pos_sf x.
Proof. destruct x as [s|s| |s m e]; cbn; try tauto; now intros ->. Qed.

(** A mantissa of fewer digits is smaller. *)
Lemma digits_lt : forall a b : positive,
  (digits2_pos a < digits2_pos b)%positive -> (a < b)%positive.
Proof.
  induction a as [a IH|a IH|]; intros [b|b|]; cbn [digits2_pos]; intros H;
    try lia; try (assert (a < b)%positive by (apply IH; lia); lia).
Qed.

(** The smaller of two positive numbers has the smaller mantissa once the
    two are aligned. *)
Lemma aligned_lt (mx my : positive) (ex ey : Z) :
  Z.max (Zpos (digits2_pos mx) + ex - 53) (-1074) = ex ->
  Z.max (Zpos (digits2_pos my) + ey - 53) (-1074) = ey ->
  ey < ex \/ (ey = ex /\ (my < mx)%positive) ->
  Zpos (fst (shl_align my ey (Z.min ex ey))) < Zpos (fst (shl_align mx ex (Z.min ex ey))).
Proof.
  intros Cx Cy [L|[-> L]].
  - rewrite Z.min_r by lia. rewrite shl_align_same.
    destruct (@shl_align_below mx ex ey L) as (d & Hd & S). rewrite S. cbn [fst].
    pose proof (digits_iter_xO mx d) as D.
    assert (digits2_pos my < digits2_pos (Pos.iter xO mx d))%positive as G by lia.
    apply digits_lt in G. lia.
  - rewrite Z.min_id, !shl_align_same. cbn [fst]. lia.
Qed.

(** Of two positive numbers, the larger less the smaller is positive. *)
Lemma SFsub_pos (x y : spec_float) :
  valid_binary x = true -> valid_binary y = true ->
  pos_sf x -> pos_sf y -> SFltb y x = true -> pos_sf (SF64sub x y).
Proof.
  intros Vx Vy.
  destruct x as [[]|[]| |[] mx ex], y as [[]|[]| |[] my ey];
    cbn [pos_sf]; try tauto; try (cbn; intros; (tauto || discriminate)).
  intros _ _ L. apply valid_finite in Vx, Vy. destruct Vx as [Cx _], Vy as [Cy _].
  assert (ey < ex \/ (ey = ex /\ (my < mx)%positive)) as O.
  { unfold SFltb in L. cbn [SFcompare] in L.
    destruct (Z.compare_spec ey ex) as [E|E|E]; try discriminate; [|now left].
    right. split; [exact E|].
    change (Pos.compare_cont Eq my mx) with (Pos.compare my mx) in L.
    destruct (Pos.compare_spec my mx); try discriminate. assumption. }
  pose proof (aligned_lt Cx Cy O) as A.
  cbn [SF64sub SFsub cond_Zopp].
  destruct (Zpos (fst (shl_align mx ex (Z.min ex ey)))
            - Zpos (fst (shl_align my ey (Z.min ex ey)))) as [|p|p] eqn:S; try lia.
  cbn [binary_normalize]. apply nonzero_signed_pos, binary_round_nonzero. lia.
Qed.


(** Two positive numbers are equal, or one is the smaller. *)
Lemma SFltb_total_pos (x y : spec_float) :
  pos_sf x -> pos_sf y -> SFltb y x = false -> SFltb x y = true \/ x = y.
Proof.
  destruct x as [[]|[]| |[] mx ex], y as [[]|[]| |[] my ey];
    cbn [pos_sf]; try tauto; intros _ _; try (cbn; (discriminate || auto)).
  unfold SFltb. cbn [SFcompare].
  rewrite (Z.compare_antisym ey ex).
  destruct (Z.compare_spec ey ex) as [E|E|E]; cbn [CompOpp]; try discriminate; auto.
  subst ey.
  change (Pos.compare_cont Eq my mx) with (Pos.compare my mx).
  change (Pos.compare_cont Eq mx my) with (Pos.compare mx my).
  rewrite (Pos.compare_antisym my mx).
  destruct (Pos.compare_spec my mx) as [E|E|E]; cbn [CompOpp]; try discriminate; auto.
  subst my. auto.
Qed.


Lemma signed_not_gt_zero (r : spec_float) :
  signed true r -> SFltb (S754_zero false) r = false.
Proof. destruct r as [s|s| |s m e]; simpl; intros H; subst; reflexivity. Qed.

(** [x - y] and [y - x] are not both positive. *)
Lemma SFsub_antisym_pos (x y : spec_float) :
  SFltb (S754_zero false) (SF64sub x y) = true ->
  SFltb (S754_zero false) (SF64sub y x) = false.
Proof.
  destruct x as [sx|sx| |sx mx ex], y as [sy|sy| |sy my ey];
    try (destruct sx, sy; cbn; congruence);
    try (destruct sx; cbn; congruence);
    try (destruct sy; cbn; congruence);
    try (cbn; congruence).
  cbn [SF64sub SFsub]. rewrite (Z.min_comm ey ex).
  set (ez := Z.min ex ey).
  set (X := cond_Zopp sx (Zpos (fst (shl_align mx ex ez)))).
  set (Y := cond_Zopp sy (Zpos (fst (shl_align my ey ez)))).
  assert (Z.sub Y X = Z.opp (Z.sub X Y)) as -> by lia.
  destruct (Z.sub X Y) as [|p|p]; cbn [Z.opp binary_normalize].
  - discriminate.
  - intros _. apply signed_not_gt_zero, binary_round_signed.
  - intros H. rewrite signed_not_gt_zero in H; [discriminate|apply binary_round_signed].
Qed.

Lemma SFabs_neg_pos (x : spec_float) :
  SFltb x (S754_zero false) = true -> pos_sf (SFabs x).
Proof. destruct x as [[]|[]| |[] m e]; cbn; try discriminate; tauto. Qed.

End PositiveDoubles.

Section LiveLoop.

Local Existing Instance Double.
Local Open Scope float_scope.

(** [a > 0] *)
Definition pos (a : float) : Prop := (0 <? a) = true.

Lemma pos_spec (a : float) : pos a <-> pos_sf (Prim2SF a).
Proof. unfold pos. rewrite ltb_spec. apply SFltb_zero_pos. Qed.



Lemma sub_pos (a b : float) : pos a -> pos b -> (b <? a) = true -> pos (a - b).
Proof.
  rewrite !pos_spec, ltb_spec, sub_spec.
  apply SFsub_pos; apply Prim2SF_valid.
Qed.


Lemma ltb_total_pos (a b : float) :
  pos a -> pos b -> (b <? a) = false -> (a <? b) = true \/ a = b.
Proof.
  rewrite !pos_spec, !ltb_spec. intros Ha Hb L.
  destruct (SFltb_total_pos _ _ Ha Hb L) as [H|H]; [now left|].
  right. now apply Prim2SF_inj.
Qed.

(** On positive amounts the comparator [b.amount - a.amount] is positive
    exactly when [a.amount < b.amount]. *)
Lemma comparator_of_positive (a b : float) :
  pos a -> pos b -> (0 <? b - a) = (a <? b).
Proof.
  intros Ha Hb. destruct (a <? b) eqn:L.
  - now apply sub_pos.
  - destruct (ltb_total_pos Hb Ha L) as [G | ->].
    + pose proof (sub_pos Ha Hb G) as P. unfold pos in P.
      rewrite ltb_spec, sub_spec in P. apply SFsub_antisym_pos in P.
      now rewrite ltb_spec, sub_spec.
    + apply (zero_or_nan_signs (sub_diag a)).
Qed.

Definition positive_amount (x : party float) : Prop := pos (amount x).

Lemma sort_insert_descending_positive (x : party float) (l : list (party float)) :
  positive_amount x -> Forall positive_amount l ->
  sort_insert by_amount_desc x l = insert_descending x l.
Proof.
  intros Hx H. induction H as [|y l Hy _ IH]; [reflexivity|].
  cbn [sort_insert insert_descending]. unfold by_amount_desc at 1.
  cbn [n_gt n_lt n_sub n_zero Double].
  rewrite (comparator_of_positive Hx Hy), IH. reflexivity.
Qed.

(** Sorting positive amounts with the comparator [b.amount - a.amount] sorts
    them by descending amount. *)
Lemma Array_sort_descending_positive (l : list (party float)) :
  Forall positive_amount l -> Array_sort by_amount_desc l = sort_descending l.
Proof.
  induction 1 as [|x l Hx H IH]; [reflexivity|].
  cbn [Array_sort sort_descending fold_right].
  fold (Array_sort (@by_amount_desc float Double) l). fold (sort_descending l).
  rewrite <- IH. apply sort_insert_descending_positive; [exact Hx|].
  eapply Permutation_Forall; [symmetry; apply Array_sort_perm|exact H].
Qed.

Lemma comparator_sorts_doubles : comparator_sorts (num := float).
Proof.
  intros people. split; apply Array_sort_descending_positive, Forall_forall;
    intros x I; apply in_map_iff in I; destruct I as (p & <- & I);
    apply filter_In in I; destruct I as [_ B]; unfold positive_amount;
    cbn [amount].
  - exact B.
  - apply pos_spec. cbn [n_abs Double]. rewrite abs_spec. apply SFabs_neg_pos.
    cbn [n_lt n_zero Double] in B. now rewrite ltb_spec in B.
Qed.








End LiveLoop.

(** ** The settlement in double precision *)

Section NothingToSettle.

Variable num : Type.
Context {arith : Number num}.

(** With no creditor the loop takes no turn. *)
Lemma no_creditor_no_transfer (people : list (person num)) (fuel : nat) :
  totals_mismatch (aggregate people) = false ->
  creditors_of people = [] ->
  calculateDebts_fuel fuel people = Some {| error := None; debts := Some [] |}.
Proof.
  intros V E. unfold calculateDebts_fuel. rewrite V.
  assert (loop_body (start people) = None) as B.
  { unfold loop_body, start. cbn [st_creditors st_i]. now rewrite E. }
  destruct fuel; cbn [while_loop]; rewrite B; reflexivity.
Qed.

Lemma no_credit_no_creditor (people : list (person num)) :
  (forall p, In p people -> n_gt (balance p) n_zero = false) ->
  creditors_of people = [].
Proof.
  intros H. apply Permutation_nil. symmetry.
  rewrite creditors_of_entries, filter_none; [reflexivity|].
  intros [k v] I. apply debtMap_values in I. destruct I as (p & I & _ & <-).
  now apply H.
Qed.



End NothingToSettle.

Section DoubleSettlement.

Local Existing Instance Double.
Local Open Scope float_scope.
Local Open Scope string_scope.

(** *** A settled ledger *)

(** A balance that [=== 0] is that of a participant who paid what they
    spent. *)
Lemma paid_is_spent (p : person float) :
  n_eq (balance p) n_zero = true -> paid p = spent p.
Proof.
  intros H. rewrite spent_n_sum. unfold balance in H. rewrite spent_n_sum in H.
  exact (sums_equal (payments p) (map value (items p)) H).
Qed.

(** C6. When the balance computed for every participant is exactly 0,
    [calculateDebts] returns the empty list of transfers and no error,
    whatever number of turns the loop is allowed, for it takes none; the
    empty list of participants and the participants without items and
    payments are cases of it. *)
Theorem settled_ledger_needs_no_transfer (people : list (person float)) :
  (forall p, In p people -> n_eq (balance p) n_zero = true) ->
  forall fuel : nat,
    calculateDebts_fuel fuel people = Some {| error := None; debts := Some [] |}.
Proof.
  intros H fuel. apply no_creditor_no_transfer.
  - unfold totals_mismatch.
    rewrite totalSpent_n_sum, totalPaid_n_sum.
    assert (map paid people = map spent people) as ->.
    { apply map_ext_in. intros p I. now apply paid_is_spent, H. }
    apply (zero_or_nan_signs (sub_diag _)).
  - apply no_credit_no_creditor. intros p I.
    exact (proj1 (eq_zero_signs (H p I))).
Qed.

(** No items and no payments: the balance is [0 - 0]. *)
Lemma empty_handed_balance (n : string) :
  n_eq (balance {| name := n; items := []; payments := [] |}) n_zero = true.
Proof. reflexivity. Qed.

(** Ann paid 1e16 and 1 for an item of 1e16: the sum of the payments is
    rounded to 1e16 and the balance computed is 0; Bob has no items and no
    payments. *)
Definition settled_ledger : list (person float) :=
  [ {| name := "Ann";
       items := [ {| item_name := "car"; value := 0x1.1c37937e08p+53 |} ];
       payments := [ 0x1.1c37937e08p+53; 1 ] |};
    {| name := "Bob"; items := []; payments := [] |} ].

Lemma settled_ledger_witness :
  calculateDebts_fuel 0 settled_ledger = Some {| error := None; debts := Some [] |}.
Proof.
  apply settled_ledger_needs_no_transfer.
  intros p [<-|[<-|[]]]; vm_compute; reflexivity.
Defined.

(** *** The reference greedy algorithm *)

(** C4, as amended. For a ledger that passes validation and whose names are
    pairwise distinct, none of them "__proto__", [calculateDebts] computes
    what the reference greedy algorithm computes on the participants taken
    in the order in which [Object.entries] lists their names, an order that
    matters between equal amounts only: the same transfers when allowed
    enough turns, and no result on either side when not. That order is a
    rearrangement of the ledger order, and is the ledger order when no name
    is an array index. *)
Theorem transfers_are_reference_greedy (people : list (person float)) (fuel : nat) :
  NoDup (map name people) ->
  Forall (fun p => name p <> "__proto__") people ->
  totals_mismatch (aggregate people) = false ->
  calculateDebts_fuel fuel people
  = option_map (fun ds => {| error := None; debts := Some ds |})
      (reference_transfers fuel (entries_order people))
  /\ Permutation (entries_order people) people
  /\ (Forall (fun p => array_index (name p) = None) people ->
      entries_order people = people).
Proof.
  intros ND NP V. split; [|split].
  - apply calculateDebts_is_reference; try assumption.
    + intros v. apply gt_zero_not_lt.
    + apply comparator_sorts_doubles.
  - apply entries_order_perm.
  - apply entries_order_named.
Qed.

(** Participants named "2" and "1" paid 30 and 10 for Carol's item of 40. *)
Definition numbered_ledger : list (person float) :=
  [ {| name := "2"; items := []; payments := [ 30 ] |};
    {| name := "1"; items := []; payments := [ 10 ] |};
    {| name := "Carol"; items := [ {| item_name := "rent"; value := 40 |} ];
       payments := [] |} ].

Lemma transfers_are_reference_greedy_witness :
  calculateDebts_fuel 4 numbered_ledger
  = option_map (fun ds => {| error := None; debts := Some ds |})
      (reference_transfers 4 (entries_order numbered_ledger))
  /\ Permutation (entries_order numbered_ledger) numbered_ledger
  /\ (Forall (fun p => array_index (name p) = None) numbered_ledger ->
      entries_order numbered_ledger = numbered_ledger).
Proof.
  apply transfers_are_reference_greedy.
  - repeat constructor; simpl; intuition discriminate.
  - repeat constructor; discriminate.
  - vm_compute. reflexivity.
Defined.

(** Two participants named "Ann": one is owed 10, the other owes 10. *)
Definition offsetting_namesakes : list (person float) :=
  [ {| name := "Ann"; items := []; payments := [ 10 ] |};
    {| name := "Ann"; items := [ {| item_name := "taxi"; value := 10 |} ];
       payments := [] |} ].

(** C4 fails as stated. With two participants of one name the ledger
    passes validation, [debtMap] holds one balance for both, and no transfer
    is returned, where the reference algorithm matches the two. *)
Lemma transfers_differ_from_reference :
  totals_mismatch (aggregate offsetting_namesakes) = false
  /\ (forall fuel : nat,
        calculateDebts_fuel fuel offsetting_namesakes
        = Some {| error := None; debts := Some [] |})
  /\ reference_transfers 2 offsetting_namesakes
     = Some [ {| from := "Ann"; to := "Ann"; debt_amount := 10 |} ]
  /\ entries_order offsetting_namesakes = offsetting_namesakes
  /\ calculateDebts_fuel 2 offsetting_namesakes
     <> option_map (fun ds => {| error := None; debts := Some ds |})
          (reference_transfers 2 offsetting_namesakes).
Proof.
  split; [vm_compute; reflexivity|]. split; [|split; [|split]].
  - intros fuel. apply no_creditor_no_transfer; vm_compute; reflexivity.
  - vm_compute. reflexivity.
  - vm_compute. reflexivity.
  - intros E. vm_compute in E. discriminate.
Qed.

(** *** Conservation *)







End DoubleSettlement.

(** ** Cards, handlers and sessions in double precision *)

Section DoubleLedger.

Local Existing Instance Double.
Local Open Scope float_scope.
Local Open Scope string_scope.

(** X6. A participant whose card says "Owes" is never asked to pay:
    when that participant is the last of the name in the ledger, no
    transfer of a list that [calculateDebts] returns is from that name. *)
Theorem card_owes_never_pays (pre post : list (person float)) (p : person float)
    (fuel : nat) (r : result float) :
  (forall q, In q post -> name q <> name p) ->
  card_standing (PersonCard p) = Owes ->
  calculateDebts_fuel fuel (pre ++ p :: post) = Some r ->
  forall ds, debts r = Some ds -> forall t, In t ds -> from t <> name p.
Proof.
  intros L O R ds D t I F.
  destruct (returned_transfer_held _ _ t R D I) as [_ (v & G & _ & N)].
  rewrite F in G.
  destruct (String.eqb_spec (name p) "__proto__") as [P|P].
  - rewrite P, debtMap_no_proto in G. discriminate.
  - rewrite (debtMap_last_write pre post p P L) in G. injection G as <-.
    revert O. unfold PersonCard. cbn [card_standing].
    fold (spent p). fold (paid p).
    destruct (n_lt (n_sub (spent p) (paid p)) n_zero) eqn:C; [|discriminate].
    intros _. apply sub_antisym in C. unfold balance in N.
    cbn [n_lt n_sub n_zero Double] in N. congruence.
Qed.


Lemma card_owes_never_pays_witness :
  from {| from := "Carol"; to := "Alice"; debt_amount := 30 |} <> "Alice".
Proof.
  apply (@card_owes_never_pays []
           [ {| name := "Bob"; items := []; payments := [ 10 ] |};
             {| name := "Carol"; items := [ {| item_name := "rent"; value := 40 |} ];
                payments := [] |} ]
           {| name := "Alice"; items := []; payments := [ 30 ] |} 2
           {| error := None;
              debts := Some [ {| from := "Carol"; to := "Alice"; debt_amount := 30 |};
                              {| from := "Carol"; to := "Bob"; debt_amount := 10 |} ] |})
    with (ds := [ {| from := "Carol"; to := "Alice"; debt_amount := 30 |};
                  {| from := "Carol"; to := "Bob"; debt_amount := 10 |} ]).
  - intros q [<-|[<-|[]]]; discriminate.
  - reflexivity.
  - vm_compute. reflexivity.
  - reflexivity.
  - simpl. auto.
Defined.



(** *** What a session can record *)

Variable parseFloat : string -> float.

Lemma zero_items_spent (p : person float) :
  Forall (fun it => value it = 0) (items p) -> spent p = 0.
Proof.
  unfold spent. generalize (items p). intros l H.
  induction H as [|it l E _ IH]; [reflexivity|].
  cbn [fold_left]. rewrite E. exact IH.
Qed.

Lemma zero_spent_total (people : list (person float)) :
  Forall (fun p => spent p = 0) people -> totalSpent (aggregate people) = 0.
Proof.
  rewrite totalSpent_n_sum. unfold n_sum. intros H.
  induction H as [|p l E _ IH]; [reflexivity|].
  cbn [map fold_left]. rewrite E. exact IH.
Qed.

(** X15. The profile dialog adds every item with the text '0'; when
    [parseFloat('0')] is 0, as it is, every participant's spending is 0 in
    every state a session reaches: the balance is what the participant
    paid, [totalSpent] is 0, and [calculateDebts] returns the error exactly
    when [totalPaid], as the doubles add up, is more than 0.01 away from
    0. *)
Theorem sessions_record_no_spending (es : list event) (s : App float) :
  parseFloat "0" = 0 ->
  run parseFloat initial es = Next s ->
  (forall p, In p (app_people s) -> spent p = 0 /\ balance p = paid p)
  /\ totalSpent (aggregate (app_people s)) = 0
  /\ forall fuel : nat,
       calculateDebts_fuel fuel (app_people s)
       = Some {| error := Some "Totals do not match"; debts := None |}
       <-> n_gt (n_abs (n_sub 0 (totalPaid (aggregate (app_people s))))) n_cent = true.
Proof.
  intros Z R.
  destruct (run_kept es (initial_kept parseFloat)) as [_ K].
  destruct (K s R) as [_ I]. unfold items_at_zero in I. rewrite Z in I.
  rewrite Forall_forall in I.
  assert (forall p, In p (app_people s) -> spent p = 0) as S
    by (intros p Hp; apply zero_items_spent, I, Hp).
  assert (totalSpent (aggregate (app_people s)) = 0) as T
    by (apply zero_spent_total, Forall_forall, S).
  split; [|split; [exact T|]].
  - intros p Hp. split; [now apply S|].
    unfold balance. rewrite (S p Hp). apply sub_zero_r.
  - intros fuel. unfold calculateDebts_fuel, totals_mismatch. rewrite T.
    destruct (n_gt (n_abs (n_sub 0 (totalPaid (aggregate (app_people s))))) n_cent).
    + split; reflexivity.
    + split; [|discriminate].
      destruct (while_loop fuel (start (app_people s))); discriminate.
Qed.

End DoubleLedger.

(** [parseFloat] on the texts typed in the session below; it is [NaN] on
    a text that holds no number. *)
Definition parse_sample (text : string) : float :=
  if String.eqb text "0" then 0%float
  else if String.eqb text "0.02" then 0x1.47ae147ae147bp-6%float
  else if String.eqb text "0.03" then 0x1.eb851eb851eb8p-6%float
  else if String.eqb text "-0.04" then (-0x1.47ae147ae147bp-5)%float
  else nan.

(** A session: Ann is added and opened, given an item and payments of
    0.02, 0.03 and -0.04. *)
Definition sample_session : list event :=
  [ SubmitPerson "Ann"; ClickCard 0; SubmitItem "tea"; SubmitPayment "0.02";
    SubmitPayment "0.03"; SubmitPayment "-0.04" ]%string.

Definition after_sample_session : App float :=
  {| app_people :=
       [ {| name := "Ann"; items := [ {| item_name := "tea"; value := 0%float |} ];
            payments := [ 0x1.47ae147ae147bp-6; 0x1.eb851eb851eb8p-6;
                          -0x1.47ae147ae147bp-5 ]%float |} ];
     openPerson := Some 0%nat; debtsDialogOpen := false |}.

Lemma sessions_record_no_spending_witness :
  (forall p, In p (app_people after_sample_session) ->
     @spent float Double p = 0%float /\ @balance float Double p = @paid float Double p)
  /\ totalSpent (@aggregate float Double (app_people after_sample_session)) = 0%float
  /\ forall fuel : nat,
       @calculateDebts_fuel float Double fuel (app_people after_sample_session)
       = Some {| error := Some "Totals do not match"%string; debts := None |}
       <-> PrimFloat.ltb 0x1.47ae147ae147bp-7
             (PrimFloat.abs
                (0 - totalPaid (@aggregate float Double (app_people after_sample_session))))
           = true.
Proof.
  apply (@sessions_record_no_spending parse_sample sample_session after_sample_session).
  - reflexivity.
  - reflexivity.
Defined.

(** The payments of that session add up to 0.010000000000000002, and the
    error is returned. *)
Example sample_session_error :
  @calculateDebts_fuel float Double 0 (app_people after_sample_session)
  = Some {| error := Some "Totals do not match"%string; debts := None |}.
Proof. vm_compute. reflexivity. Qed.

(** ** The sum that overflows, claim by claim *)

Section Overflow.

Local Existing Instance Double.
Local Open Scope float_scope.
Local Open Scope string_scope.

Lemma overflow_passes_validation : totals_mismatch (aggregate overflow_ledger) = false.
Proof. vm_compute. reflexivity. Qed.

Lemma overflow_loop_runs_on (fuel : nat) :
  while_loop fuel (start overflow_ledger) = None.
Proof.
  destruct fuel as [|fuel]; cbn [while_loop]; rewrite overflow_first_turn.
  - reflexivity.
  - apply stuck_forever.
Qed.

Lemma overflow_no_result (fuel : nat) : calculateDebts_fuel fuel overflow_ledger = None.
Proof.
  unfold calculateDebts_fuel.
  now rewrite overflow_passes_validation, overflow_loop_runs_on.
Qed.




(** Items of 0.02 and 0.03 against a payment of 0.04: the totals are the
    doubles 0.05 and 0.04, their difference is 0.010000000000000002, and the
    error is returned. *)
Example rounded_totals_error :
  calculateDebts_fuel 0
    [ {| name := "Ann";
         items := [ {| item_name := "tea"; value := 0x1.47ae147ae147bp-6 |};
                    {| item_name := "cake"; value := 0x1.eb851eb851eb8p-6 |} ];
         payments := [ 0x1.47ae147ae147bp-5 ] |} ]
  = Some {| error := Some "Totals do not match"; debts := None |}.
Proof. vm_compute. reflexivity. Qed.

(** C1 fails on this ledger. A result that [calculateDebts] returns is the
    error when [Math.abs(totalSpent - totalPaid) > 0.01] and a list of
    transfers otherwise, never both; but on this ledger of finite amounts
    the difference of the totals is [NaN], the test is false, and neither
    the error nor a list is returned, however many turns the loop is
    allowed. *)
Theorem overflow_returns_neither :
  (forall (people : list (person float)) (fuel : nat) (r : result float),
     calculateDebts_fuel fuel people = Some r ->
     (totals_mismatch (aggregate people) = true
      /\ r = {| error := Some "Totals do not match"; debts := None |})
     \/ (totals_mismatch (aggregate people) = false
         /\ exists ds, r = {| error := None; debts := Some ds |}))
  /\ Forall (fun p => Forall (fun x => is_finite x = true) (payments p)
                      /\ Forall (fun it => is_finite (value it) = true) (items p))
       overflow_ledger
  /\ n_sub (totalSpent (aggregate overflow_ledger)) (totalPaid (aggregate overflow_ledger))
     = nan
  /\ n_gt (n_abs (n_sub (totalSpent (aggregate overflow_ledger))
                        (totalPaid (aggregate overflow_ledger)))) n_cent = false
  /\ forall (fuel : nat) (r : result float),
       calculateDebts_fuel fuel overflow_ledger <> Some r.
Proof.
  split; [|split; [repeat constructor|split; [vm_compute; reflexivity|split]]].
  - intros people fuel r. unfold calculateDebts_fuel.
    destruct (totals_mismatch (aggregate people)).
    + intros E. injection E as <-. left. auto.
    + destruct (while_loop fuel (start people)) as [s|]; [|discriminate].
      intros E. injection E as <-. right. eauto.
  - exact overflow_passes_validation.
  - intros fuel r. rewrite overflow_no_result. discriminate.
Qed.



End Overflow.
